(** * Expense analysis: location parsing and aggregation

    A shallow embedding of [analyze_expenses_v2.py]: the location rule
    engine [parse_location], the amount coercion of line 142, and the
    grouping, sorting, share and KPI computations that [main] performs on
    the enriched ledger and writes to the summary.  Reading the workbook,
    the charts and the PDF report are outside the embedding.

    Conventions.
    - A Python [str] is a [string]; its characters are the code points
      0..255 (Latin-1).  Whitespace and lower-casing follow Python's
      [str.isspace] and [str.lower] on that range.
    - A missing cell (pandas NaN, None, NaT) is [None].
    - A float64 is a value of [f64]: a rational for a finite number, or one
      of the three special values.  [Float64] rounds every result to
      binary64, and [Frame] aggregates amounts that may be infinite, with
      the sums and the value sort of pandas as parameters.  [Ledger] is
      the same aggregation on finite amounts in exact arithmetic, for the
      properties that rounding does not touch.
    - An exception is a result of [None]. *)

From Stdlib Require Import Bool Arith NArith ZArith QArith Qround Qabs Lia Lqa.
From Stdlib Require Import List.
From Stdlib Require Import Ascii String Sorting.Sorted Permutation.
From Stdlib Require Import Decimal DecimalString DecimalN.
Import ListNotations.

Local Open Scope string_scope.

(** ** Python string primitives *)

Module Py.

Definition code (c : ascii) : N := N_of_ascii c.

(** [str.isspace] on a single character. *)
Definition is_space (c : ascii) : bool :=
  let n := code c in
  ((9 <=? n) && (n <=? 13) || (28 <=? n) && (n <=? 32)
   || (n =? 133) || (n =? 160))%N.

(** [str.lower] on a single character. *)
Definition lower_char (c : ascii) : ascii :=
  let n := code c in
  if ((65 <=? n) && (n <=? 90))%N then ascii_of_N (n + 32)
  else if ((192 <=? n) && (n <=? 222) && negb (n =? 215))%N
       then ascii_of_N (n + 32)
       else c.

Fixpoint lower (s : string) : string :=
  match s with
  | EmptyString => EmptyString
  | String c r => String (lower_char c) (lower r)
  end.

(** [c in chars] for a one-character [c]. *)
Fixpoint mem (c : ascii) (chars : string) : bool :=
  match chars with
  | EmptyString => false
  | String d r => Ascii.eqb c d || mem c r
  end.

Definition is_empty (s : string) : bool :=
  match s with EmptyString => true | _ => false end.

(** [x or y] on strings: the empty string is falsy. *)
Definition or_else (x y : string) : string :=
  if is_empty x then y else x.

Fixpoint lstrip_by (p : ascii -> bool) (s : string) : string :=
  match s with
  | EmptyString => EmptyString
  | String c r => if p c then lstrip_by p r else s
  end.

Fixpoint rstrip_by (p : ascii -> bool) (s : string) : string :=
  match s with
  | EmptyString => EmptyString
  | String c r =>
      let r' := rstrip_by p r in
      if is_empty r' && p c then EmptyString else String c r'
  end.

Definition strip_by (p : ascii -> bool) (s : string) : string :=
  rstrip_by p (lstrip_by p s).

(** [s.strip()] *)
Definition strip (s : string) : string := strip_by is_space s.

(** [s.strip(chars)] *)
Definition strip_chars (chars s : string) : string :=
  strip_by (fun c => mem c chars) s.

(** [re.sub(r"\s+", " ", s)]: every maximal run of whitespace becomes one
    space.  [in_run] tells that the previous character was whitespace. *)
Fixpoint collapse (in_run : bool) (s : string) : string :=
  match s with
  | EmptyString => EmptyString
  | String c r =>
      if is_space c
      then if in_run then collapse true r else String " " (collapse true r)
      else String c (collapse false r)
  end.

Definition re_sub_ws (s : string) : string := collapse false s.

(** [s[n:]] *)
Fixpoint drop (n : nat) (s : string) : string :=
  match n, s with
  | O, _ => s
  | S _, EmptyString => EmptyString
  | S m, String _ r => drop m r
  end.

(** [s.startswith(p)] *)
Definition startswith (s p : string) : bool := String.prefix p s.

(** Splitting once at the first character that satisfies [p]:
    [s.split("_", 1)] and [re.split(r"[_-]", s, maxsplit=1)].
    [None] stands for the one-element list the Python calls return when
    there is no separator. *)
Fixpoint split_once (p : ascii -> bool) (s : string)
  : option (string * string) :=
  match s with
  | EmptyString => None
  | String c r =>
      if p c then Some (EmptyString, r)
      else match split_once p r with
           | Some (a, b) => Some (String c a, b)
           | None => None
           end
  end.

Definition is_underscore (c : ascii) : bool := Ascii.eqb c "_".
Definition is_underscore_or_hyphen (c : ascii) : bool :=
  Ascii.eqb c "_" || Ascii.eqb c "-".

(** [s.split()]: the maximal runs of non-whitespace characters. *)
Fixpoint split_ws (s : string) : list string :=
  match s with
  | EmptyString => []
  | String c r =>
      if is_space c then split_ws r
      else match r with
           | EmptyString => [String c EmptyString]
           | String d _ =>
               if is_space d then String c EmptyString :: split_ws r
               else match split_ws r with
                    | w :: ws => String c w :: ws
                    | [] => [String c EmptyString]
                    end
           end
  end.

(** [" ".join(ws)] *)
Definition join (ws : list string) : string := String.concat " " ws.

(** Case-insensitive match of a lower-case literal at the start of [s];
    returns what follows it. *)
Fixpoint match_ci (lit s : string) : option string :=
  match lit, s with
  | EmptyString, _ => Some s
  | String _ _, EmptyString => None
  | String l lit', String c r =>
      if Ascii.eqb (lower_char c) l then match_ci lit' r else None
  end.

(** The regular expression "dot star": the longest prefix without a
    line feed. *)
Fixpoint dot_star (s : string) : string :=
  match s with
  | EmptyString => EmptyString
  | String c r =>
      if Ascii.eqb c "010" then EmptyString else String c (dot_star r)
  end.

(** No character of [p] is whitespace. *)
Fixpoint no_space (p : string) : bool :=
  match p with
  | EmptyString => true
  | String a r => negb (is_space a) && no_space r
  end.

End Py.

(** ** The location parser *)

Module Location.
Import Py.

(** The separator characters of [.strip(" ,-_")]. *)
Definition seps : string := " ,-_".

(** The tail of the Dupont pattern, matched at the start of [rest]: one
    or more whitespace characters, the word lounge in any case, optional
    whitespace, then group 2, which runs to the end of the line.  Both
    whitespace repetitions are greedy; what follows the first cannot
    start with whitespace and what follows the second always matches, so
    backtracking never changes the outcome. *)
Definition lounge_tail (rest : string) : option string :=
  match rest with
  | EmptyString => None
  | String c r =>
      if is_space c
      then match match_ci "lounge" (lstrip_by is_space r) with
           | Some t => Some (dot_star (lstrip_by is_space t))
           | None => None
           end
      else None
  end.

(** [re.match] of the case-insensitive Dupont pattern (dupoint or dupont,
    then the tail above) on [s]; [Some g] is a match whose group 2 is
    [g].  The two spellings are tried in order. *)
Definition re_match_dupont (s : string) : option string :=
  let attempt lit :=
    match match_ci lit s with
    | Some rest => lounge_tail rest
    | None => None
    end in
  match attempt "dupoint" with
  | Some g => Some g
  | None => attempt "dupont"
  end.

(** [s[len(prefix):].strip(" ,-_")] *)
Definition rest_after (prefix s : string) : string :=
  strip_chars seps (drop (String.length prefix) s).

(** [re.sub(r"\s+", " ", str(loc).strip())] *)
Definition normalize (raw : string) : string := re_sub_ws (strip raw).

(** The generic fallbacks, lines 108-117. *)
Definition generic_fallback (s : string) : string * string :=
  match split_once is_underscore s with
  | Some (m, a) => (or_else (strip m) "Unknown", or_else (strip a) "Unknown")
  | None =>
      let words := split_ws s in
      if (List.length words <=? 2)%nat then (s, "Unknown")
      else (join (firstn 2 words), or_else (join (skipn 2 words)) "Unknown")
  end.

(** The rule chain of [parse_location] on the normalised string. *)
Definition parse_normalized (s : string) : string * string :=
  let lower := lower s in
  if startswith lower "shell" then
    ("Shell", or_else (strip_chars seps (drop 5 s)) "Unknown")
  else if startswith lower "total" then
    ("Total", or_else (strip_chars seps (drop 5 s)) "Unknown")
  else if startswith lower "home" then
    let area :=
      match split_once is_underscore_or_hyphen s with
      | Some (_, part1) => strip part1
      | None => strip_chars seps (drop 4 s)
      end in
    ("Home", or_else area "Unknown")
  else if startswith lower "love dale butchery"
          || startswith lower "love dale" then
    let area :=
      (* ["_" in s] holds exactly when the split has a second part *)
      match split_once is_underscore s with
      | Some (_, part1) => strip part1
      | None => rest_after "Love Dale Butchery" s
      end in
    ("Love Dale Butchery", or_else area "Unknown")
  else if startswith lower "dupoint" || startswith lower "dupont" then
    let area :=
      or_else (match re_match_dupont s with
               | Some g => strip g
               | None => ""
               end) "Unknown" in
    ("Dupoint Lounge", area)
  else if startswith lower "greenview" then
    ("Greenview Restaurant", or_else (rest_after "Greenview" s) "Unknown")
  else if startswith lower "fish pit hub" then
    ("Fish Pit Hub", or_else (rest_after "Fish pit hub" s) "Unknown")
  else if startswith lower "junction pizza inn" then
    ("Pizza Inn", "Junction Mall")
  else if startswith lower "junction mall" then
    ("Junction Mall", "Junction Mall")
  else if startswith lower "leofresh" then
    ("LeoFresh", or_else (rest_after "LeoFresh" s) "Unknown")
  else if startswith lower "nairobi chapel" then
    ("Nairobi Chapel", or_else (rest_after "Nairobi Chapel" s) "Unknown")
  else if startswith lower "karura forest" then
    ("Karura Forest", "Karura")
  else if startswith lower "rockwell" then
    ("Rockwell Service Station", or_else (rest_after "Rockwell" s) "Unknown")
  else if startswith lower "kisii" then
    ("Kisii Contribution", "Kisii")
  else if startswith lower "naivasha road" then
    ("Naivasha Road", "Naivasha Road")
  else generic_fallback s.

(** [parse_location(loc)]; [None] is a value for which [pd.isna] holds,
    [Some raw] a value whose [str] is [raw]. *)
Definition parse_location (loc : option string) : string * string :=
  match loc with
  | None => ("Unknown", "Unknown")
  | Some raw => parse_normalized (normalize raw)
  end.

(** The prefix tests of the brand rules, in the order of the source. *)
Definition brand_prefixes : list string :=
  [ "shell"; "total"; "home"; "love dale butchery"; "love dale";
    "dupoint"; "dupont"; "greenview"; "fish pit hub";
    "junction pizza inn"; "junction mall"; "leofresh"; "nairobi chapel";
    "karura forest"; "rockwell"; "kisii"; "naivasha road" ].

(** A brand rule fires on the normalised string [s]. *)
Definition brand_rule_matches (s : string) : bool :=
  existsb (startswith (lower s)) brand_prefixes.

End Location.

(** ** Numbers *)

Module Num.
Local Open Scope Q_scope.

(** A float64: a finite value, taken as the rational it denotes, or one
    of the special values.  Signed zeros are not distinguished. *)
Inductive f64 : Type :=
| Fin (q : Q)
| PInf
| NInf
| NaN.

Definition is_nan (x : f64) : bool :=
  match x with NaN => true | _ => false end.

Definition is_finite (x : f64) : bool :=
  match x with Fin _ => true | _ => false end.

Definition Qltb (a b : Q) : bool := negb (Qle_bool b a).

(** Round half to even, the rounding of [rint]. *)
Definition round_half_even (x : Q) : Z :=
  let f := Qfloor x in
  match ((x - inject_Z f) ?= (1 # 2))%Q with
  | Lt => f
  | Gt => (f + 1)%Z
  | Eq => if Z.even f then f else (f + 1)%Z
  end.

(** [x.round(1)] on a finite value. *)
Definition round1q (x : Q) : Q := inject_Z (round_half_even (x * 10)) / 10.

(** [s / t] for finite [s] and [t]: the quotient when [t] is not zero,
    otherwise what float division gives without raising. *)
Definition div_finite (s t : Q) : f64 :=
  if Qeq_bool t 0 then
    match s ?= 0 with
    | Gt => PInf
    | Lt => NInf
    | Eq => NaN
    end
  else Fin (s / t).

(** [x * 100] *)
Definition times100 (x : f64) : f64 :=
  match x with
  | Fin q => Fin (q * 100)
  | other => other
  end.

(** [x.round(1)] *)
Definition round1 (x : f64) : f64 :=
  match x with
  | Fin q => Fin (round1q q)
  | other => other
  end.

End Num.

(** ** Amount coercion *)

Module Coercion.
Import Num.

(** What an [Amount] cell of the input table can hold. *)
Inductive cell : Type :=
| Blank
| Number (x : f64)
| Text (s : string).

Section WithRecognizer.

(** pandas' recogniser of numbers written as text: [Some x] when the
    text denotes the float [x], [None] when it denotes no number. *)
Variable floatify : string -> option f64.

(** [pd.to_numeric(v, errors="coerce")] on one cell. *)
Definition to_numeric_coerce (c : cell) : f64 :=
  match c with
  | Blank => NaN
  | Number x => x
  | Text s =>
      match floatify s with
      | Some x => x
      | None => NaN
      end
  end.

(** [.fillna(0)] on one value. *)
Definition fillna0 (x : f64) : f64 :=
  if is_nan x then Fin 0 else x.

(** Line 142 on one cell. *)
Definition coerce_amount (c : cell) : f64 :=
  fillna0 (to_numeric_coerce c).

(** Line 142 on the column. *)
Definition coerce_column (col : list cell) : list f64 :=
  map coerce_amount col.

(** A cell that holds no number. *)
Definition non_numeric (c : cell) : bool :=
  match c with
  | Blank => true
  | Number x => is_nan x
  | Text s =>
      match floatify s with
      | Some x => is_nan x
      | None => true
      end
  end.

End WithRecognizer.

(** The words that pandas reads as special values, in any case; a
    recogniser that knows only these. *)
Definition special_words (s : string) : option f64 :=
  let w := Py.lower s in
  if String.eqb w "inf" || String.eqb w "+inf"
     || String.eqb w "infinity" || String.eqb w "+infinity" then Some PInf
  else if String.eqb w "-inf" || String.eqb w "-infinity" then Some NInf
  else if String.eqb w "nan" then Some NaN
  else None.

End Coercion.

(** ** The enriched ledger and its aggregations *)

Module Ledger.
Import Num.
Local Open Scope Q_scope.

(** A value of the [Date] column after [pd.to_datetime]: a calendar date.
    pandas timestamps run from 1677 to 2262, so a year has four digits. *)
Record Timestamp : Type := mkDate {
  year : nat;
  month : nat;
  day : nat
}.

(** One row of the data frame after lines 141-142.  [Date] is [None] for a
    blank cell (NaT).  [Amount] is the coerced amount, here a finite one,
    held as the rational it denotes.  [Location], [Type_] and
    [Payment_type] are [None] for a blank cell. *)
Record Row : Type := mkRow {
  Date : option Timestamp;
  Amount : Q;
  Location : option string;
  Type_ : option string;
  Payment_type : option string
}.

(** The decimal digit of the units of [n]. *)
Definition digit (n : nat) : ascii := ascii_of_nat (48 + n mod 10).

(** [str] of a monthly period: the year on four digits, a hyphen, the
    month on two digits. *)
Definition period_label (d : Timestamp) : string :=
  String (digit (year d / 1000))
    (String (digit (year d / 100))
       (String (digit (year d / 10))
          (String (digit (year d))
             (String "-"
                (String (digit (month d / 10))
                   (String (digit (month d)) EmptyString)))))).

(** Line 144: [df["Date"].dt.to_period("M").astype(str)]. *)
Definition Month (r : Row) : string :=
  match Date r with
  | Some d => period_label d
  | None => "NaT"
  end.

(** Line 143: the two derived columns. *)
Definition Merchant (r : Row) : string :=
  fst (Location.parse_location (Location r)).
Definition Area (r : Row) : string :=
  snd (Location.parse_location (Location r)).

Definition DataFrame : Type := list Row.

(** A float Series with a string index, in index order. *)
Definition Series : Type := list (string * Q).

(** The grouping columns; a group key of [None] is a missing value. *)
Definition by_month (r : Row) : option string := Some (Month r).
Definition by_merchant (r : Row) : option string := Some (Merchant r).
Definition by_area (r : Row) : option string := Some (Area r).

(** Adding one row's amount to its group; groups are kept in ascending
    key order, as [groupby] (sort=True) returns them. *)
Fixpoint add_group (k : string) (a : Q) (g : Series) : Series :=
  match g with
  | [] => [(k, a)]
  | (k', s) :: rest =>
      match String.compare k k' with
      | Lt => (k, a) :: g
      | Eq => (k', s + a) :: rest
      | Gt => (k', s) :: add_group k a rest
      end
  end.

(** [df.groupby(col)["Amount"].sum()]: rows whose key is missing are
    dropped (dropna=True). *)
Definition groupby_sum (col : Row -> option string) (df : DataFrame)
  : Series :=
  fold_left (fun g r =>
               match col r with
               | Some k => add_group k (Amount r) g
               | None => g
               end) df [].

Fixpoint insert_index (x : string * Q) (l : Series) : Series :=
  match l with
  | [] => [x]
  | y :: rest =>
      if String.ltb (fst y) (fst x) then y :: insert_index x rest
      else x :: l
  end.

(** [.sort_index()] *)
Definition sort_index (s : Series) : Series :=
  fold_right insert_index [] s.

Fixpoint insert_desc (x : string * Q) (l : Series) : Series :=
  match l with
  | [] => [x]
  | y :: rest =>
      if Qltb (snd x) (snd y) then y :: insert_desc x rest
      else x :: l
  end.

(** [.sort_values(ascending=False)]: larger values first.  pandas sorts
    in descending order by reversing the values, sorting them in ascending
    order and reversing the outcome, so that entries with equal values
    keep the order they have in [s] when the ascending sort keeps ties in
    order; the sort is taken to do so. *)
Definition sort_values_desc (s : Series) : Series :=
  fold_right insert_desc [] s.

(** [.head(n)] *)
Definition head (n : nat) (s : Series) : Series := firstn n s.

(** [df["Amount"].sum()] *)
Definition sum_amounts (df : DataFrame) : Q :=
  fold_left (fun acc r => acc + Amount r) df 0.


(** The first entry that is best for [better], scanning from [best]. *)
Fixpoint first_best (better : Q -> Q -> bool) (best : string * Q)
         (l : Series) : string * Q :=
  match l with
  | [] => best
  | x :: rest =>
      if better (snd x) (snd best) then first_best better x rest
      else first_best better best rest
  end.

(** [s.idxmax()] with [s.max()], [s.idxmin()] with [s.min()]: the first
    label that holds the extreme value; [None] for an empty Series, where
    pandas raises. *)
Definition idxmax (s : Series) : option (string * Q) :=
  match s with
  | [] => None
  | x :: rest => Some (first_best (fun a b => Qltb b a) x rest)
  end.

Definition idxmin (s : Series) : option (string * Q) :=
  match s with
  | [] => None
  | x :: rest => Some (first_best (fun a b => Qltb a b) x rest)
  end.

(** [(tot / total * 100).round(1)] on one value. *)
Definition share (v total : Q) : f64 :=
  round1 (times100 (div_finite v total)).

(** [(tot / total * 100).round(1)] *)
Definition share_series (tot : Series) (total : Q) : list (string * f64) :=
  map (fun kv => (fst kv, share (snd kv) total)) tot.

(** [series.loc[k]]; [None] is a KeyError. *)
Fixpoint loc (k : string) (s : list (string * f64)) : option f64 :=
  match s with
  | [] => None
  | (k', v) :: rest => if String.eqb k k' then Some v else loc k rest
  end.

(** An entry of [by_type] or [by_payment]. *)
Record ShareEntry : Type := mkShareEntry {
  label : string;
  amount : Q;
  share_pct : option f64
}.

Definition with_shares (tot : Series) (shares : list (string * f64))
  : list ShareEntry :=
  map (fun kv => mkShareEntry (fst kv) (snd kv) (loc (fst kv) shares)) tot.

(** The part of the summary dictionary built from the aggregations; the
    currency tag, the date range, the mean and the median are left out. *)
Record Summary : Type := mkSummary {
  total_spend : Q;
  transactions : nat;
  highest_month : option (string * Q);
  lowest_month : option (string * Q);
  by_type : list ShareEntry;
  by_payment : list ShareEntry;
  top_merchants : Series;
  top_areas : Series;
  shell_by_station : Series;
  monthly_totals : Series
}.

(** Lines 153-157 of [main]. *)
Definition monthly (df : DataFrame) : Series :=
  sort_index (groupby_sum by_month df).
Definition type_tot (df : DataFrame) : Series :=
  sort_values_desc (groupby_sum Type_ df).
Definition pay_tot (df : DataFrame) : Series :=
  sort_values_desc (groupby_sum Payment_type df).
Definition merch_tot (df : DataFrame) : Series :=
  sort_values_desc (groupby_sum by_merchant df).
Definition area_tot (df : DataFrame) : Series :=
  sort_values_desc (groupby_sum by_area df).

(** Line 240: the areas of the rows whose merchant is Shell. *)
Definition shell_area (df : DataFrame) : Series :=
  sort_values_desc
    (groupby_sum by_area
       (filter (fun r => String.eqb (Merchant r) "Shell") df)).

(** Lines 146-147 and 243-262 of [main].  The date range of lines 150-151
    is not computed here; on a ledger without rows line 150 raises before
    any of this is reached, so only a ledger with a row stands for a
    completed run. *)
Definition summarize (df : DataFrame) : Summary :=
  let total := sum_amounts df in
  let n := List.length df in
  let type_share := share_series (type_tot df) total in
  let pay_share := share_series (pay_tot df) total in
  {| total_spend := total;
     transactions := n;
     highest_month := idxmax (monthly df);
     lowest_month := idxmin (monthly df);
     by_type := with_shares (type_tot df) type_share;
     by_payment := with_shares (pay_tot df) pay_share;
     top_merchants := head 10 (merch_tot df);
     top_areas := head 10 (area_tot df);
     shell_by_station := shell_area df;
     monthly_totals := monthly df |}.

(** The position of the first row of [df] whose key is [k]. *)
Fixpoint first_seen (col : Row -> option string) (k : string)
         (df : DataFrame) : option nat :=
  match df with
  | [] => None
  | r :: rest =>
      match col r with
      | Some k' =>
          if String.eqb k k' then Some O
          else option_map S (first_seen col k rest)
      | None => option_map S (first_seen col k rest)
      end
  end.

(** The row has a group key in column [col]. *)
Definition has_key (col : Row -> option string) (r : Row) : bool :=
  match col r with Some _ => true | None => false end.

(** Reordering a Series by a list of positions. *)
Definition take (idx : list nat) (s : Series) : Series :=
  flat_map (fun i => match nth_error s i with
                     | Some x => [x]
                     | None => []
                     end) idx.

(** A value sort that is left open: [argsort] picks the order of the
    positions from the values alone. *)
Definition sort_values_with (argsort : list Q -> list nat) (s : Series)
  : Series :=
  take (argsort (map snd s)) s.

(** Lexicographic order of labels by code point, the order of Python
    strings. *)
Definition slt (a b : string) : Prop := String.compare a b = Lt.

(** Labels strictly increasing along a Series. *)
Definition keys_increasing (s : Series) : Prop :=
  StronglySorted (fun x y => slt (fst x) (fst y)) s.

(** Larger value first; equal values in increasing label order. *)
Definition desc_then_key (x y : string * Q) : Prop :=
  snd y < snd x \/ (snd x == snd y /\ slt (fst x) (fst y)).

(** Values never increasing along a list. *)
Definition non_increasing (l : list Q) : Prop :=
  StronglySorted (fun a b => b <= a) l.


(** The month of [d1] is before the month of [d2]. *)
Definition month_before (d1 d2 : Timestamp) : Prop :=
  (year d1 < year d2 \/ (year d1 = year d2 /\ month d1 < month d2))%nat.

(** A date with a four-digit year and a month from 1 to 12. *)
Definition well_formed (d : Timestamp) : Prop :=
  (1 <= year d / 1000 <= 9 /\ 1 <= month d <= 12)%nat.

(** In [out], entries with equal values stand in the order in which
    their groups are first seen in [df]. *)
Definition ties_in_first_seen_order (col : Row -> option string)
           (df : DataFrame) (out : Series) : Prop :=
  forall (i j : nat) (k1 k2 : string) (v1 v2 : Q),
    (i < j)%nat ->
    nth_error out i = Some (k1, v1) ->
    nth_error out j = Some (k2, v2) ->
    v1 == v2 ->
    exists p1 p2 : nat,
      first_seen col k1 df = Some p1
      /\ first_seen col k2 df = Some p2
      /\ (p1 < p2)%nat.

(** In [out], entries with equal values stand in increasing label
    order. *)
Definition ties_in_label_order (out : Series) : Prop :=
  forall (i j : nat) (k1 k2 : string) (v1 v2 : Q),
    (i < j)%nat ->
    nth_error out i = Some (k1, v1) ->
    nth_error out j = Some (k2, v2) ->
    v1 == v2 ->
    slt k1 k2.



(** What float division by a zero total leaves in place of a share. *)
Definition zero_total_share (v : Q) : f64 :=
  match v ?= 0 with
  | Gt => PInf
  | Lt => NInf
  | Eq => NaN
  end.

End Ledger.

(** ** Sample ledgers *)

Module Samples.
Import Ledger.
Local Open Scope Q_scope.

Definition on (y m d : nat) : option Timestamp := Some (mkDate y m d).

(** Two purchases of 10, the later one in the type that sorts first. *)
Definition ledger_B_then_A : DataFrame :=
  [ mkRow (on 2024 1 15) 10
      (Some "Shell Dagoretti") (Some "B") (Some "Cash");
    mkRow (on 2024 1 15) 10
      (Some "Shell Dagoretti") (Some "A") (Some "Mpesa") ].

(** One purchase whose type cell is blank. *)
Definition ledger_blank_type : DataFrame :=
  [ mkRow (on 2024 1 15) 100
      (Some "Shell Dagoretti") None (Some "Cash") ].

(** Two months with the same total. *)
Definition ledger_two_months : DataFrame :=
  [ mkRow (on 2024 1 15) 100
      (Some "Shell Dagoretti") (Some "Car") (Some "Cash");
    mkRow (on 2024 2 15) 100
      (Some "Home_Kikuyu Road") (Some "Rent") (Some "Cash") ].

(** A purchase and a refund that cancel. *)
Definition ledger_cancel : DataFrame :=
  [ mkRow (on 2024 1 15) 5
      (Some "Shell Dagoretti") (Some "Food") (Some "Cash");
    mkRow (on 2024 1 15) (-5)
      (Some "Shell Dagoretti") (Some "Refund") (Some "Cash") ].

(** Three purchases of one type. *)
Definition ledger_food : DataFrame :=
  [ mkRow (on 2024 1 15) 100
      (Some "Java House") (Some "Food") (Some "Cash");
    mkRow (on 2024 1 15) 200
      (Some "Java House") (Some "Food") (Some "Mpesa");
    mkRow (on 2024 2 15) 300
      (Some "Java House") (Some "Food") (Some "Cash") ].

End Samples.

(** ** Vocabulary for further properties *)

Module Chars.
Import Py.

(** Every character of [s] satisfies [p]. *)
Fixpoint all_chars (p : ascii -> bool) (s : string) : bool :=
  match s with
  | EmptyString => true
  | String c r => p c && all_chars p r
  end.

Definition first_char (s : string) : option ascii :=
  match s with
  | EmptyString => None
  | String c _ => Some c
  end.

Fixpoint last_char (s : string) : option ascii :=
  match s with
  | EmptyString => None
  | String c EmptyString => Some c
  | String _ r => last_char r
  end.

(** [s] is empty, or neither its first nor its last character satisfies
    [p]. *)
Definition clean_ends (p : ascii -> bool) (s : string) : bool :=
  match first_char s, last_char s with
  | Some a, Some b => negb (p a) && negb (p b)
  | _, _ => true
  end.

(** A separator of [.strip(" ,-_")]. *)
Definition is_sep (c : ascii) : bool := mem c Location.seps.

(** The merchant labels of the brand rules, in the order of the rules. *)
Definition brand_merchants : list string :=
  [ "Shell"; "Total"; "Home"; "Love Dale Butchery"; "Dupoint Lounge";
    "Greenview Restaurant"; "Fish Pit Hub"; "Pizza Inn"; "Junction Mall";
    "LeoFresh"; "Nairobi Chapel"; "Karura Forest";
    "Rockwell Service Station"; "Kisii Contribution"; "Naivasha Road" ].

(** Every whitespace character of [s] is a space, and no whitespace
    character follows another. *)
Fixpoint single_spaced (s : string) : bool :=
  match s with
  | EmptyString => true
  | String c r =>
      (if is_space c
       then Ascii.eqb c " "
            && match r with
               | String d _ => negb (is_space d)
               | EmptyString => true
               end
       else true)
      && single_spaced r
  end.

(** The two components of a pair are in the normal form of line 34. *)
Definition normal_pair (p : string * string) : Prop :=
  Location.normalize (fst p) = fst p /\ Location.normalize (snd p) = snd p.

End Chars.

(** ** The remaining figures of [main] *)

Module Report.
Import Num Ledger.
Local Open Scope Q_scope.

(** The rows whose key in column [col] is [k]. *)
Definition rows_with (col : Row -> option string) (k : string)
           (df : DataFrame) : DataFrame :=
  filter (fun r => match col r with
                   | Some k' => String.eqb k k'
                   | None => false
                   end) df.

(** [out] holds a group for exactly the keys that occur in column [col]
    of [df], and the value of each group is the total of its rows. *)
Definition groups_of_rows (col : Row -> option string) (df : DataFrame)
           (out : Series) : Prop :=
  forall k : string,
    (forall v : Q, In (k, v) out -> v == sum_amounts (rows_with col k df))
    /\ ((exists v : Q, In (k, v) out) <-> rows_with col k df <> []).


(** [top] is the first [n] entries of [full], or all of them when there
    are fewer, and no entry left out has a larger value than one kept. *)
Definition top_n_of (n : nat) (full top : Series) : Prop :=
  exists rest : Series,
    full = (top ++ rest)%list
    /\ List.length top = Nat.min n (List.length full)
    /\ forall x y : string * Q, In x top -> In y rest -> snd y <= snd x.

(** The frame of a [groupby(...).agg(["sum", "count"])]: for each key the
    sum of the amounts and the number of rows, in index order. *)
Definition Stats : Type := list (string * (Q * nat)).

(** Adding one row to its group. *)
Fixpoint add_stat (k : string) (a : Q) (g : Stats) : Stats :=
  match g with
  | [] => [(k, (a, 1%nat))]
  | (k', (s, c)) :: rest =>
      match String.compare k k' with
      | Lt => (k, (a, 1%nat)) :: g
      | Eq => (k', (s + a, S c)) :: rest
      | Gt => (k', (s, c)) :: add_stat k a rest
      end
  end.

(** [df.groupby(col)["Amount"].agg(["sum", "count"])]; no amount is
    missing after line 142, so that [count] counts every row of a group. *)
Definition groupby_agg (col : Row -> option string) (df : DataFrame)
  : Stats :=
  fold_left (fun g r =>
               match col r with
               | Some k => add_stat k (Amount r) g
               | None => g
               end) df [].

Fixpoint insert_stat_desc (x : string * (Q * nat)) (l : Stats) : Stats :=
  match l with
  | [] => [x]
  | y :: rest =>
      if Qltb (fst (snd x)) (fst (snd y)) then y :: insert_stat_desc x rest
      else x :: l
  end.

(** [.sort_values("sum", ascending=False)] on the frame: the rows are
    put in order by the routine that sorts a Series by value. *)
Definition sort_stats_desc (s : Stats) : Stats :=
  fold_right insert_stat_desc [] s.

(** Line 310: the eight areas of the area table. *)
Definition area_stats (df : DataFrame) : Stats :=
  firstn 8 (sort_stats_desc (groupby_agg by_area df)).

(** Line 216: the areas of the heatmap. *)
Definition top_areas_list (df : DataFrame) : list string :=
  map fst (head 8 (area_tot df)).

(** The columns [Area] and [sum] of a line of the area table. *)
Definition sum_of (e : string * (Q * nat)) : string * Q :=
  (fst e, fst (snd e)).

(** The total of the column [count]. *)
Definition count_total (s : Stats) : nat :=
  fold_right (fun e acc => (snd (snd e) + acc)%nat) 0%nat s.

End Report.

(** ** Number formatting *)

Module Format.
Import Num.

(** The decimal digits of a natural number, "0" for zero. *)
Definition digits (n : N) : string :=
  NilZero.string_of_uint (N.to_uint n).

(** A comma after every third character, unless it is the last. *)
Fixpoint group_rev (l : list ascii) : list ascii :=
  match l with
  | a :: b :: c :: ((_ :: _) as rest) =>
      a :: b :: c :: ","%char :: group_rev rest
  | _ => l
  end.

(** The thousands separator of the format option [,]: commas set every
    three digits, counted from the right. *)
Definition group3 (s : string) : string :=
  string_of_list_ascii
    (List.rev (group_rev (List.rev (list_ascii_of_string s)))).

(** Line 278: [f"{n:,}"] for a count. *)
Definition format_count (n : nat) : string :=
  group3 (digits (N.of_nat n)).

Definition is_digit (c : ascii) : bool :=
  let n := N_of_ascii c in ((48 <=? n) && (n <=? 57))%N.

Definition not_comma (c : ascii) : bool := negb (Ascii.eqb c ",").

(** The characters of [s], the last one first. *)
Definition from_the_right (s : string) : list ascii :=
  List.rev (list_ascii_of_string s).

End Format.

(** ** Float64 arithmetic *)

Module Float64.
Import Num.
Local Open Scope Q_scope.

(** [2 ^ t] for an exponent of either sign. *)
Definition pow2 (t : Z) : Q :=
  match t with
  | Z0 => 1
  | Zpos p => inject_Z (Z.pow 2 (Zpos p))
  | Zneg p => 1 # Pos.pow 2 p
  end.

(** The exponent [e] with [2 ^ e <= a < 2 ^ (e + 1)], for [a > 0]. *)
Definition exponent (a : Q) : Z :=
  let e0 := (Z.log2 (Qnum a) - Z.log2 (Zpos (Qden a)))%Z in
  if Qle_bool (pow2 e0) a then e0 else (e0 - 1)%Z.

(** The binary64 value nearest to the magnitude [a > 0], ties to the even
    significand: 53 significant bits, least exponent -1074, and infinity
    from [2 ^ 1024] on. *)
Definition round_magnitude (a : Q) : option Q :=
  let t := Z.max (exponent a - 52) (-1074) in
  let v := inject_Z (round_half_even (a / pow2 t)) * pow2 t in
  if Qle_bool (pow2 1024) v then None else Some (Qred v).

(** Rounding a real result to binary64, as every float operation does. *)
Definition rnd (q : Q) : f64 :=
  match q ?= 0 with
  | Eq => Fin 0
  | Gt => match round_magnitude q with
          | Some v => Fin v
          | None => PInf
          end
  | Lt => match round_magnitude (- q) with
          | Some v => Fin (- v)
          | None => NInf
          end
  end.

(** The sign of a value that is not NaN. *)
Definition f64_sign (x : f64) : comparison :=
  match x with
  | Fin q => q ?= 0
  | PInf => Gt
  | NInf => Lt
  | NaN => Eq
  end.

Definition signed_inf (s : comparison) : f64 :=
  match s with
  | Gt => PInf
  | Lt => NInf
  | Eq => NaN
  end.

Definition sign_mul (a b : comparison) : comparison :=
  match a, b with
  | Eq, _ | _, Eq => Eq
  | Gt, Gt | Lt, Lt => Gt
  | _, _ => Lt
  end.

(** [x / y] on float64 arrays: no exception is raised; a division by zero
    gives an infinity or NaN.  A zero divisor is taken as positive. *)
Definition f64_div (x y : f64) : f64 :=
  match x, y with
  | NaN, _ | _, NaN => NaN
  | Fin a, Fin b =>
      if Qeq_bool b 0 then signed_inf (a ?= 0) else rnd (a / b)
  | Fin _, _ => Fin 0
  | _, Fin b =>
      if Qeq_bool b 0 then x else signed_inf (sign_mul (f64_sign x) (b ?= 0))
  | _, _ => NaN
  end.

(** [x * y] on float64 arrays. *)
Definition f64_mul (x y : f64) : f64 :=
  match x, y with
  | NaN, _ | _, NaN => NaN
  | Fin a, Fin b => rnd (a * b)
  | _, _ => signed_inf (sign_mul (f64_sign x) (f64_sign y))
  end.

(** [numpy.rint]: the nearest integer, ties to even. *)
Definition f64_rint (x : f64) : f64 :=
  match x with
  | Fin a => Fin (inject_Z (round_half_even a))
  | other => other
  end.

(** [Series.round(1)], which is numpy's: multiply by 10, [rint], divide
    by 10, each step a float64 operation. *)
Definition f64_round1 (x : f64) : f64 :=
  f64_div (f64_rint (f64_mul x (Fin 10))) (Fin 10).

(** [(tot / total * 100).round(1)] for one value of [tot]. *)
Definition share (v total : f64) : f64 :=
  f64_round1 (f64_mul (f64_div v total) (Fin 100)).

(** [round(100 * s / t, 1)] over the reals, the formula of the
    specification. *)
Definition exact_share (s t : Q) : Q := round1q (100 * s / t).

(** [x + y] on float64 values. *)
Definition f64_add (x y : f64) : f64 :=
  match x, y with
  | NaN, _ | _, NaN => NaN
  | Fin a, Fin b => rnd (a + b)
  | Fin _, other | other, Fin _ => other
  | PInf, PInf => PInf
  | NInf, NInf => NInf
  | _, _ => NaN
  end.

(** [x] stands before [y] in a descending sort that puts NaN last: [y] is
    NaN, or neither is and [y <= x]. *)
Definition before (x y : f64) : Prop :=
  match x, y with
  | _, NaN => True
  | NaN, _ => False
  | PInf, _ => True
  | _, NInf => True
  | Fin a, Fin b => b <= a
  | _, _ => False
  end.

(** [y <= x] as a float comparison: false when either is NaN. *)
Definition f64_ge (x y : f64) : Prop :=
  is_nan x = false /\ is_nan y = false /\ before x y.

End Float64.


(** ** The aggregation in float64 *)

Module Frame.
Import Num Float64.
Local Open Scope Q_scope.

(** One row of the data frame after lines 141-144.  [Amount] is the
    float64 left by line 142, which may be an infinity; [Date], [Location],
    [Type_] and [Payment_type] are [None] for a blank cell. *)
Record Row : Type := mkRow {
  Date : option Ledger.Timestamp;
  Amount : f64;
  Location : option string;
  Type_ : option string;
  Payment_type : option string
}.

Definition DataFrame : Type := list Row.

(** A float Series with a string index, in index order. *)
Definition Series : Type := list (string * f64).

(** Line 144: the month of a dated row; the month of a row without a date
    stays missing. *)
Definition Month (r : Row) : option string :=
  match Date r with
  | Some d => Some (Ledger.period_label d)
  | None => None
  end.

(** Line 143: the two derived columns. *)
Definition Merchant (r : Row) : option string :=
  Some (fst (Location.parse_location (Location r))).
Definition Area (r : Row) : option string :=
  Some (snd (Location.parse_location (Location r))).

(** A row has a key in column [col]. *)
Definition has_key (col : Row -> option string) (r : Row) : bool :=
  match col r with Some _ => true | None => false end.

(** Adding one row's amount to the values of its group; groups are kept
    in ascending key order, as [groupby] (sort=True) returns them, and the
    values of a group in row order. *)
Fixpoint add_row (k : string) (a : f64) (g : list (string * list f64))
  : list (string * list f64) :=
  match g with
  | [] => [(k, [a])]
  | (k', vs) :: rest =>
      match String.compare k k' with
      | Lt => (k, [a]) :: g
      | Eq => (k', (vs ++ [a])%list) :: rest
      | Gt => (k', vs) :: add_row k a rest
      end
  end.

(** [df.groupby(col)["Amount"]]: rows whose key is missing are dropped
    (dropna=True). *)
Definition group_rows (col : Row -> option string) (df : DataFrame)
  : list (string * list f64) :=
  fold_left (fun g r =>
               match col r with
               | Some k => add_row k (Amount r) g
               | None => g
               end) df [].

(** The first entry of [s] under label [k]: [s.loc[k]]. *)
Fixpoint loc (s : Series) (k : string) : option f64 :=
  match s with
  | [] => None
  | (k', v) :: rest => if String.eqb k k' then Some v else loc rest k
  end.

(** An entry of [by_type] or [by_payment]. *)
Record ShareEntry : Type := mkShare {
  label : string;
  amount : f64;
  share_pct : option f64
}.

(** The part of the summary of lines 246-263 that holds aggregations. *)
Record Summary : Type := mkSummary {
  total_spend : f64;
  by_type : list ShareEntry;
  by_payment : list ShareEntry;
  top_merchants : Series;
  top_areas : Series;
  monthly_totals : Series
}.

Fixpoint insert_index (x : string * f64) (l : Series) : Series :=
  match l with
  | [] => [x]
  | y :: rest =>
      if String.ltb (fst y) (fst x) then y :: insert_index x rest
      else x :: l
  end.

(** [.sort_index()] *)
Definition sort_index (s : Series) : Series :=
  fold_right insert_index [] s.

(** [.head(n)] *)
Definition head (n : nat) (s : Series) : Series := firstn n s.

Section Routines.

(** The routines of pandas that the aggregation calls: [Series.sum], the
    sum of a group of [groupby], and the argsort behind
    [sort_values(ascending=False)], which returns the positions of the
    values in the order of the outcome.  pandas fixes neither the order
    in which a sum adds its values nor the order in which the default sort
    leaves equal values, so the three are parameters. *)
Variable series_sum : list f64 -> f64.
Variable group_sum : list f64 -> f64.
Variable argsort_desc : list f64 -> list nat.

(** [df.groupby(col)["Amount"].sum()] *)
Definition groupby_sum (col : Row -> option string) (df : DataFrame)
  : Series :=
  map (fun g => (fst g, group_sum (snd g))) (group_rows col df).

(** [.sort_values(ascending=False)] *)
Definition sort_values_desc (s : Series) : Series :=
  map (fun i => nth i s (EmptyString, NaN)) (argsort_desc (map snd s)).

(** Line 146 *)
Definition total (df : DataFrame) : f64 := series_sum (map Amount df).

(** Lines 153-157 *)
Definition monthly (df : DataFrame) : Series :=
  sort_index (groupby_sum Month df).
Definition type_tot (df : DataFrame) : Series :=
  sort_values_desc (groupby_sum Type_ df).
Definition pay_tot (df : DataFrame) : Series :=
  sort_values_desc (groupby_sum Payment_type df).
Definition merch_tot (df : DataFrame) : Series :=
  sort_values_desc (groupby_sum Merchant df).
Definition area_tot (df : DataFrame) : Series :=
  sort_values_desc (groupby_sum Area df).

(** Lines 243-244: [(tot / total * 100).round(1)] *)
Definition share_series (tot : Series) (t : f64) : Series :=
  map (fun kv => (fst kv, share (snd kv) t)) tot.

(** Lines 257-258: one entry for each item of [tot], its share looked up
    by label. *)
Definition with_shares (tot sh : Series) : list ShareEntry :=
  map (fun kv => mkShare (fst kv) (snd kv) (loc sh (fst kv))) tot.

(** Lines 246-263: the summary that is written when line 246 is reached.
    The charts drawn before it compute nothing the summary uses; a
    ledger on which line 143 or a chart raises has no summary. *)
Definition summarize (df : DataFrame) : Summary :=
  let t := total df in
  mkSummary t
    (with_shares (type_tot df) (share_series (type_tot df) t))
    (with_shares (pay_tot df) (share_series (pay_tot df) t))
    (head 10 (merch_tot df))
    (head 10 (area_tot df))
    (monthly df).

End Routines.

(** Labels strictly increasing along a list of labelled values. *)
Definition labels_increasing {V : Type} (s : list (string * V)) : Prop :=
  StronglySorted (fun x y => Ledger.slt (fst x) (fst y)) s.


(** Values never increasing along a list, as floats compare. *)
Definition non_increasing (l : list f64) : Prop :=
  StronglySorted f64_ge l.


(** What is relied on of a sum: without values it is 0, of one value it
    is that value, and of two it is their float64 sum; no value is NaN
    after line 142. *)
Definition summation (sum : list f64 -> f64) : Prop :=
  sum [] = Fin 0
  /\ (forall x, is_nan x = false -> sum [x] = x)
  /\ (forall x y, is_nan x = false -> is_nan y = false ->
                  sum [x; y] = f64_add x y).

(** What is relied on of the descending argsort: it returns every
    position once, and along it the values never increase, NaN last. *)
Definition sorts_desc (argsort : list f64 -> list nat) : Prop :=
  forall vs : list f64,
    Permutation (argsort vs) (seq 0 (List.length vs))
    /\ StronglySorted before (map (fun i => nth i vs NaN) (argsort vs)).

(** The sum of a list of reals. *)
Definition sum_reals (l : list Q) : Q := fold_right Qplus 0 l.

(** The float64 [s] is a finite value within [tol] of the real sum of
    [qs]. *)
Definition within (tol : Q) (s : f64) (qs : list Q) : Prop :=
  exists v : Q, s = Fin v /\ Qabs (v - sum_reals qs) <= tol.

(** The finite values of a list of float64. *)
Definition finite_values (l : list f64) : list Q :=
  flat_map (fun x => match x with Fin q => [q] | _ => [] end) l.

(** The grouping columns of lines 153-157. *)
Definition dimensions : list (Row -> option string) :=
  [Month; Type_; Payment_type; Merchant; Area].

(** The real total of the rows that have a key in column [col]. *)
Definition keyed_total (col : Row -> option string) (df : DataFrame) : Q :=
  sum_reals (finite_values (map Amount (filter (has_key col) df))).

(** The tolerances of the sums of the groups of column [col], added up. *)
Definition group_tolerance (tol : list f64 -> Q)
           (col : Row -> option string) (df : DataFrame) : Q :=
  sum_reals (map (fun g => tol (snd g)) (group_rows col df)).

(** Sum conservation for the aggregation [out] of column [col]: the sums
    of the groups are finite and add up to the real total of the rows
    that have a key, within the tolerance of the group sums; when every
    row has a key they add up to the grand total [t], within that
    tolerance and the tolerance of [t]. *)
Definition conserves (tol : list f64 -> Q) (t : f64)
           (col : Row -> option string) (df : DataFrame) (out : Series)
  : Prop :=
  exists vals : list Q,
    map snd out = map Fin vals
    /\ Qabs (sum_reals vals - keyed_total col df)
       <= group_tolerance tol col df
    /\ (forallb (has_key col) df = true ->
        exists tv : Q,
          t = Fin tv
          /\ Qabs (sum_reals vals - tv)
             <= group_tolerance tol col df + tol (map Amount df)).

(** Every sum that the aggregation of [df] computes is within the
    tolerance [tol] of the real sum of the values it adds. *)
Definition sums_within (series_sum group_sum : list f64 -> f64)
           (tol : list f64 -> Q) (df : DataFrame) : Prop :=
  within (tol (map Amount df)) (series_sum (map Amount df))
    (finite_values (map Amount df))
  /\ forall (col : Row -> option string) (k : string) (vs : list f64),
       In col dimensions -> In (k, vs) (group_rows col df) ->
       within (tol vs) (group_sum vs) (finite_values vs).

(** A sum that adds from left to right, and a descending insertion sort
    of positions: one choice of the routines. *)
Definition sum_left_to_right (l : list f64) : f64 :=
  match l with
  | [] => Fin 0
  | x :: r => fold_left f64_add r x
  end.

Definition beforeb (x y : f64) : bool :=
  match x, y with
  | _, NaN => true
  | NaN, _ => false
  | PInf, _ => true
  | _, NInf => true
  | Fin a, Fin b => Qle_bool b a
  | _, _ => false
  end.

Fixpoint insert_position (x : nat * f64) (l : list (nat * f64))
  : list (nat * f64) :=
  match l with
  | [] => [x]
  | y :: rest =>
      if beforeb (snd x) (snd y) then x :: l
      else y :: insert_position x rest
  end.

Definition insertion_argsort (vs : list f64) : list nat :=
  map fst (fold_right insert_position []
             (combine (seq 0 (List.length vs)) vs)).

(** In [out], entries with equal values stand in the order in which
    their groups are first seen in [df]. *)
Definition first_seen (col : Row -> option string) (k : string)
           (df : DataFrame) : option nat :=
  (fix go (l : DataFrame) (i : nat) : option nat :=
     match l with
     | [] => None
     | r :: rest =>
         match col r with
         | Some k' => if String.eqb k k' then Some i else go rest (S i)
         | None => go rest (S i)
         end
     end) df O.

Definition ties_in_first_seen_order (col : Row -> option string)
           (df : DataFrame) (out : Series) : Prop :=
  forall (i j : nat) (k1 k2 : string) (v : f64),
    (i < j)%nat ->
    nth_error out i = Some (k1, v) ->
    nth_error out j = Some (k2, v) ->
    exists p1 p2 : nat,
      first_seen col k1 df = Some p1
      /\ first_seen col k2 df = Some p2
      /\ (p1 < p2)%nat.

End Frame.

Module FrameSamples.
Import Num Frame.
Local Open Scope Q_scope.

Definition on (y m d : nat) : option Ledger.Timestamp :=
  Some (Ledger.mkDate y m d).

(** Two purchases of 10 of different types, in either order. *)
Definition ledger_B_then_A : DataFrame :=
  [ mkRow (on 2024 1 15) (Fin 10)
      (Some "Shell Dagoretti") (Some "B") (Some "Cash");
    mkRow (on 2024 1 15) (Fin 10)
      (Some "Shell Dagoretti") (Some "A") (Some "Mpesa") ].



(** Purchases of 23 and 57. *)
Definition ledger_23_57 : DataFrame :=
  [ mkRow (on 2024 1 15) (Fin 23)
      (Some "Shell Dagoretti") (Some "A") (Some "Cash");
    mkRow (on 2024 1 16) (Fin 57)
      (Some "Java House") (Some "B") (Some "Mpesa") ].

(** A purchase and a refund that cancel. *)
Definition ledger_cancel : DataFrame :=
  [ mkRow (on 2024 1 15) (Fin 5)
      (Some "Shell Dagoretti") (Some "Food") (Some "Cash");
    mkRow (on 2024 1 15) (Fin (-5))
      (Some "Shell Dagoretti") (Some "Refund") (Some "Cash") ].

(** One purchase whose type cell is blank. *)
Definition ledger_blank_type : DataFrame :=
  [ mkRow (on 2024 1 15) (Fin 100)
      (Some "Shell Dagoretti") None (Some "Cash") ].

(** Three purchases of one type in two months. *)
Definition ledger_food : DataFrame :=
  [ mkRow (on 2024 1 15) (Fin 100)
      (Some "Java House") (Some "Food") (Some "Cash");
    mkRow (on 2024 1 15) (Fin 200)
      (Some "Java House") (Some "Food") (Some "Mpesa");
    mkRow (on 2024 2 15) (Fin 300)
      (Some "Java House") (Some "Food") (Some "Cash") ].

End FrameSamples.

(** * Properties of the location parser *)

Module LocationFacts.
Import Py Location.

(** *** Strings *)

Lemma startswith_cons (a : ascii) (p s : string) :
  startswith s (String a p) = true ->
  exists r, s = String a r /\ startswith r p = true.
Proof.
  unfold startswith. destruct s as [|c r]; simpl; [discriminate|].
  destruct (ascii_dec a c) as [->|]; [|discriminate].
  intros H. now exists r.
Qed.

Lemma or_else_nonempty (x y : string) : y <> "" -> or_else x y <> "".
Proof.
  unfold or_else. destruct x; simpl; [auto|discriminate].
Qed.

Lemma or_else_keep (x y : string) : x <> "" -> or_else x y = x.
Proof.
  unfold or_else. destruct x; simpl; [congruence|reflexivity].
Qed.

Lemma split_once_none (s : string) :
  mem "_" s = false -> split_once is_underscore s = None.
Proof.
  induction s as [|c r IH]; cbn [mem split_once]; [reflexivity|].
  replace (is_underscore c) with (Ascii.eqb "_" c) by apply Ascii.eqb_sym.
  destruct (Ascii.eqb "_" c); cbn [orb]; intros H; [discriminate H|].
  now rewrite (IH H).
Qed.

Lemma split_ws_nonempty (s : string) :
  Forall (fun w => w <> "") (split_ws s).
Proof.
  induction s as [|c r IH]; simpl; [constructor|].
  destruct (is_space c); [exact IH|].
  destruct r as [|d r']; [repeat constructor; discriminate|].
  destruct (is_space d).
  - constructor; [discriminate|exact IH].
  - destruct (split_ws (String d r')) as [|w ws].
    + repeat constructor; discriminate.
    + inversion IH; subst. constructor; [discriminate|assumption].
Qed.

Lemma join_nonempty (ws : list string) :
  ws <> [] -> Forall (fun w => w <> "") ws -> join ws <> "".
Proof.
  destruct ws as [|w ws]; [congruence|].
  intros _ H. inversion H as [|? ? Hw _]; subst.
  destruct w as [|c w]; [congruence|].
  unfold join. simpl. destruct ws; discriminate.
Qed.

Lemma Forall_skipn {A} (P : A -> Prop) (n : nat) (l : list A) :
  Forall P l -> Forall P (skipn n l).
Proof.
  revert l. induction n as [|n IH]; intros l H; simpl; [exact H|].
  destruct l; [constructor|]. inversion H; subst. now apply IH.
Qed.

Lemma Forall_firstn {A} (P : A -> Prop) (n : nat) (l : list A) :
  Forall P l -> Forall P (firstn n l).
Proof.
  revert l. induction n as [|n IH]; intros l H; simpl; [constructor|].
  destruct l; [constructor|]. inversion H; subst.
  constructor; [assumption|now apply IH].
Qed.

(** Whitespace is not changed by lower-casing. *)
Lemma lower_char_space (c : ascii) :
  is_space c = true -> lower_char c = c.
Proof.
  destruct c as [[] [] [] [] [] [] [] []]; vm_compute; congruence.
Qed.

Lemma not_space_of_lower (c : ascii) :
  is_space (lower_char c) = false -> is_space c = false.
Proof.
  intros H. destruct (is_space c) eqn:E; [|reflexivity].
  now rewrite (lower_char_space c E), E in H.
Qed.

Lemma startswith_lower_tail (p s : string) :
  no_space p = true ->
  startswith (lower s) p = true ->
  startswith (lower (collapse false (rstrip_by is_space s))) p = true.
Proof.
  revert s. induction p as [|a p IH]; intros s Hp H.
  - unfold startswith.
    destruct (lower (collapse false (rstrip_by is_space s))); reflexivity.
  - simpl in Hp. apply andb_prop in Hp as [Ha Hp].
    apply negb_true_iff in Ha.
    destruct s as [|c r]; [discriminate H|].
    apply startswith_cons in H as (r' & E & H).
    simpl in E. injection E as Ec Er. subst r'.
    assert (Hc : is_space c = false)
      by (apply not_space_of_lower; now rewrite Ec).
    simpl. rewrite Hc, andb_false_r. simpl. rewrite Hc. simpl.
    rewrite Ec. unfold startswith. simpl.
    destruct (ascii_dec a a); [|congruence].
    now apply IH.
Qed.

(** A prefix without whitespace survives normalisation. *)
Lemma startswith_lower_normalize (a : ascii) (p raw : string) :
  no_space (String a p) = true ->
  startswith (lower raw) (String a p) = true ->
  startswith (lower (normalize raw)) (String a p) = true.
Proof.
  intros Hp H. unfold normalize, re_sub_ws, strip, strip_by.
  assert (E : lstrip_by is_space raw = raw).
  { destruct raw as [|c r]; [reflexivity|].
    apply startswith_cons in H as (r' & E & _).
    simpl in E. injection E as Ec _.
    simpl in Hp. apply andb_prop in Hp as [Ha _].
    apply negb_true_iff in Ha.
    simpl. rewrite (not_space_of_lower c); [reflexivity|now rewrite Ec]. }
  rewrite E. now apply startswith_lower_tail.
Qed.

(** *** The rule chain *)

Lemma brand_rules_none (s : string) :
  brand_rule_matches s = false ->
  Forall (fun p => startswith (lower s) p = false) brand_prefixes.
Proof.
  unfold brand_rule_matches. intros H. apply Forall_forall. intros p Hp.
  destruct (startswith (lower s) p) eqn:E; [|reflexivity].
  assert (existsb (startswith (lower s)) brand_prefixes = true)
    by (apply existsb_exists; eauto).
  congruence.
Qed.

Lemma no_brand_rule_fallback (s : string) :
  brand_rule_matches s = false ->
  parse_normalized s = generic_fallback s.
Proof.
  intros H. apply brand_rules_none in H. unfold brand_prefixes in H.
  repeat match type of H with
         | Forall _ (_ :: _) =>
             let E := fresh "E" in
             apply Forall_cons_iff in H as [E H]
         end.
  unfold parse_normalized.
  now rewrite E, E0, E1, E2, E3, E4, E5, E6, E7, E8, E9, E10, E11, E12,
    E13, E14, E15.
Qed.

Lemma dupont_rule (s : string) :
  startswith (lower s) "dupoint" || startswith (lower s) "dupont" = true ->
  parse_normalized s =
    ("Dupoint Lounge",
     or_else (match re_match_dupont s with
              | Some g => strip g
              | None => ""
              end) "Unknown").
Proof.
  intros H. unfold parse_normalized.
  assert (exists r, lower s = String "d" r) as [r E].
  { apply orb_prop in H as [H|H];
      apply startswith_cons in H as (r & E & _); eauto. }
  rewrite E in *. cbn [orb]. unfold startswith at 1 2 3 4 5. simpl prefix.
  cbn [orb]. now rewrite H.
Qed.

Lemma junction_pizza_inn_rule (s : string) :
  startswith (lower s) "junction pizza inn" = true ->
  parse_normalized s = ("Pizza Inn", "Junction Mall").
Proof.
  intros H. unfold parse_normalized.
  assert (exists r, lower s = String "j" r) as [r E]
    by (apply startswith_cons in H as (r & E & _); eauto).
  rewrite E in *.
  unfold startswith at 1 2 3 4 5 6 7 8 9. simpl prefix. cbn [orb].
  now rewrite H.
Qed.

(** Apart from blank input, neither component is ever empty. *)
Lemma parse_normalized_nonempty (s : string) :
  s <> "" ->
  fst (parse_normalized s) <> "" /\ snd (parse_normalized s) <> "".
Proof.
  intros Hs. unfold parse_normalized, generic_fallback.
  repeat match goal with
         | |- context [if ?b then _ else _] => destruct b eqn:?
         | |- context [match split_once ?p ?x with _ => _ end] =>
             destruct (split_once p x) as [[? ?]|]
         end;
    cbn [fst snd];
    try (split; first [discriminate | apply or_else_nonempty; discriminate
                      | assumption]).
  split; [|apply or_else_nonempty; discriminate].
  pose proof (split_ws_nonempty s) as F.
  destruct (split_ws s) as [|w ws]; [discriminate|].
  apply join_nonempty; [discriminate|].
  now apply Forall_firstn.
Qed.

Lemma parse_location_nonempty (raw : string) :
  normalize raw <> "" ->
  fst (parse_location (Some raw)) <> ""
  /\ snd (parse_location (Some raw)) <> "".
Proof. apply parse_normalized_nonempty. Qed.

(** *** The scenarios of the specification *)

Example shell_dagoretti :
  parse_location (Some "Shell Dagoretti") = ("Shell", "Dagoretti").
Proof. reflexivity. Qed.

Example home_kikuyu_road :
  parse_location (Some "Home_Kikuyu Road") = ("Home", "Kikuyu Road").
Proof. reflexivity. Qed.

Example dupoint_lounge_westlands :
  parse_location (Some "dupont  LOUNGE Westlands")
  = ("Dupoint Lounge", "Westlands").
Proof. reflexivity. Qed.

(** *** The claims about the parser *)

(** C1, at the inputs where it fails: for the empty string and for a
    string of spaces the parser returns an empty merchant, not the
    placeholder "Unknown"; the null value does give the placeholder in
    both components. *)
Theorem C1_blank_string_gives_empty_merchant :
  parse_location (Some "") = ("", "Unknown")
  /\ parse_location (Some "   ") = ("", "Unknown")
  /\ parse_location None = ("Unknown", "Unknown").
Proof. repeat split. Qed.

(** C7: "Junction Pizza Inn" parses to ("Pizza Inn", "Junction Mall"), and
    so does every input on which the junction-pizza-inn test succeeds: the
    rule returns at once and nothing that follows it in the chain, the
    junction-mall rule included, has a say. *)
Theorem C7_junction_pizza_inn_first_match :
  parse_location (Some "Junction Pizza Inn") = ("Pizza Inn", "Junction Mall")
  /\ forall raw : string,
       startswith (lower (normalize raw)) "junction pizza inn" = true ->
       parse_location (Some raw) = ("Pizza Inn", "Junction Mall").
Proof.
  split; [reflexivity|].
  intros raw H. now apply junction_pizza_inn_rule.
Qed.

Lemma C7_witness :
  startswith (lower (normalize "junction  PIZZA inn - Ngong Road"))
    "junction pizza inn" = true
  /\ parse_location (Some "junction  PIZZA inn - Ngong Road")
     = ("Pizza Inn", "Junction Mall").
Proof.
  split; [reflexivity|].
  apply (proj2 C7_junction_pizza_inn_first_match). reflexivity.
Defined.

(** C8: when no brand rule fires on the normalised string [s] and [s] has
    no underscore, then with at most two words the result is
    ([s], "Unknown"), and with more than two words it is the first two
    words joined by a space and the remaining words joined by single
    spaces.  For an input that is already normalised [s] is the input
    itself.  In particular "Java House Westlands Branch" gives
    ("Java House", "Westlands Branch"). *)
Theorem C8_generic_word_split :
  (forall raw : string,
      let s := normalize raw in
      brand_rule_matches s = false ->
      mem "_" s = false ->
      ((List.length (split_ws s) <= 2)%nat ->
       parse_location (Some raw) = (s, "Unknown"))
      /\ ((2 < List.length (split_ws s))%nat ->
          parse_location (Some raw)
          = (join (firstn 2 (split_ws s)), join (skipn 2 (split_ws s)))))
  /\ parse_location (Some "Java House Westlands Branch")
     = ("Java House", "Westlands Branch").
Proof.
  split; [|reflexivity].
  intros raw s Hb Hu. unfold parse_location. fold s.
  rewrite (no_brand_rule_fallback s Hb). unfold generic_fallback.
  rewrite (split_once_none s Hu). cbv zeta. split; intros Hn.
  - apply Nat.leb_le in Hn. now rewrite Hn.
  - assert (E : (List.length (split_ws s) <=? 2)%nat = false)
      by (apply Nat.leb_gt; exact Hn).
    rewrite E. f_equal. apply or_else_keep. apply join_nonempty.
    + intros E'. apply (f_equal (@List.length _)) in E'.
      rewrite length_skipn in E'. simpl in E'. lia.
    + apply Forall_skipn, split_ws_nonempty.
Qed.

Lemma C8_witness :
  let s := normalize "Mama  Njeri   Kiosk Gikambura" in
  (brand_rule_matches s = false /\ mem "_" s = false
   /\ (2 < List.length (split_ws s))%nat)
  /\ parse_location (Some "Mama  Njeri   Kiosk Gikambura")
     = ("Mama Njeri", "Kiosk Gikambura").
Proof.
  split; [repeat split; vm_compute; lia|].
  apply (proj1 C8_generic_word_split "Mama  Njeri   Kiosk Gikambura");
    [reflexivity|reflexivity|vm_compute; lia].
Defined.

(** C10: an input whose lower-cased form starts with "dupoint" or
    "dupont", and whose normalised form the Dupont-lounge pattern does not
    match, parses to ("Dupoint Lounge", "Unknown"); a brand rule fires on
    it, so the generic fallback is not reached. *)
Theorem C10_dupont_without_lounge (raw : string) :
  startswith (lower raw) "dupoint" || startswith (lower raw) "dupont" = true ->
  re_match_dupont (normalize raw) = None ->
  parse_location (Some raw) = ("Dupoint Lounge", "Unknown")
  /\ brand_rule_matches (normalize raw) = true.
Proof.
  intros Hp Hm.
  assert (Hn : startswith (lower (normalize raw)) "dupoint"
               || startswith (lower (normalize raw)) "dupont" = true).
  { apply orb_prop in Hp as [Hp|Hp];
      apply startswith_lower_normalize in Hp; try reflexivity;
      rewrite Hp; auto using orb_true_r. }
  split.
  - unfold parse_location. rewrite (dupont_rule _ Hn), Hm. reflexivity.
  - unfold brand_rule_matches, brand_prefixes. cbn [existsb].
    apply orb_prop in Hn as [Hn|Hn]; rewrite Hn;
      repeat (rewrite ?orb_true_r, ?orb_true_l); reflexivity.
Qed.

Lemma C10_witness :
  (startswith (lower "Dupont Circle") "dupoint"
   || startswith (lower "Dupont Circle") "dupont" = true
   /\ re_match_dupont (normalize "Dupont Circle") = None)
  /\ parse_location (Some "Dupont Circle") = ("Dupoint Lounge", "Unknown")
  /\ brand_rule_matches (normalize "Dupont Circle") = true.
Proof.
  split; [split; reflexivity|].
  apply (C10_dupont_without_lounge "Dupont Circle"); reflexivity.
Defined.

End LocationFacts.

(** * Properties of the aggregations *)

Module LedgerFacts.
Import Num Ledger Samples.
Local Open Scope Q_scope.
Local Open Scope list_scope.

(** *** The order of labels *)

Lemma compare_refl (a : string) : String.compare a a = Eq.
Proof.
  induction a as [|c a IH]; simpl; [reflexivity|].
  unfold Ascii.compare. now rewrite N.compare_refl.
Qed.

Lemma slt_irrefl (a : string) : ~ slt a a.
Proof. unfold slt. now rewrite compare_refl. Qed.

Lemma slt_trans (a b c : string) : slt a b -> slt b c -> slt a c.
Proof.
  unfold slt. revert b c.
  induction a as [|x a IH]; intros [|y b] [|z c]; simpl;
    try discriminate; try reflexivity.
  unfold Ascii.compare.
  destruct (N.compare_spec (N_of_ascii x) (N_of_ascii y)) as [E1|L1|G1];
    try discriminate;
    destruct (N.compare_spec (N_of_ascii y) (N_of_ascii z)) as [E2|L2|G2];
    try discriminate; intros H1 H2.
  - rewrite E1, E2, N.compare_refl. eauto.
  - rewrite E1. now apply N.compare_lt_iff in L2 as ->.
  - rewrite <- E2. now apply N.compare_lt_iff in L1 as ->.
  - assert (L : (N_of_ascii x < N_of_ascii z)%N) by lia.
    now apply N.compare_lt_iff in L as ->.
Qed.

Lemma slt_gt (a b : string) : String.compare a b = Gt -> slt b a.
Proof.
  unfold slt. rewrite (String.compare_antisym b a).
  now intros ->.
Qed.



Lemma slt_not_leb (a b : string) : slt a b -> String.leb b a = false.
Proof.
  unfold slt, String.leb. intros H.
  now rewrite (String.compare_antisym b a), H.
Qed.

Lemma ltb_slt (a b : string) : String.ltb a b = true <-> slt a b.
Proof.
  unfold slt, String.ltb. destruct (String.compare a b); split; congruence.
Qed.

(** The order of month labels is the order of the months. *)

Lemma digit_compare (a b : nat) :
  Ascii.compare (digit a) (digit b) = Nat.compare (a mod 10) (b mod 10).
Proof.
  assert (D : forall n, N_of_ascii (digit n) = N.of_nat (48 + n mod 10)).
  { intros n. unfold digit, ascii_of_nat. apply N_ascii_embedding.
    pose proof (Nat.mod_upper_bound n 10). lia. }
  unfold Ascii.compare. rewrite !D, <- Nat2N.inj_compare.
  destruct (Nat.compare_spec (a mod 10) (b mod 10));
    [apply Nat.compare_eq_iff|apply Nat.compare_lt_iff
    |apply Nat.compare_gt_iff]; lia.
Qed.

Lemma year_digits (y : nat) :
  y = (1000 * (y / 1000) + 100 * ((y / 100) mod 10)
       + 10 * ((y / 10) mod 10) + y mod 10)%nat.
Proof.
  replace (y / 1000)%nat with (y / 10 / 10 / 10)%nat
    by (rewrite !Nat.Div0.div_div; reflexivity).
  replace (y / 100)%nat with (y / 10 / 10)%nat
    by (rewrite !Nat.Div0.div_div; reflexivity).
  pose proof (Nat.div_mod_eq y 10).
  pose proof (Nat.div_mod_eq (y / 10) 10).
  pose proof (Nat.div_mod_eq (y / 10 / 10) 10).
  lia.
Qed.

Lemma period_label_chronological (d1 d2 : Timestamp) :
  well_formed d1 -> well_formed d2 ->
  (slt (period_label d1) (period_label d2) <-> month_before d1 d2).
Proof.
  unfold well_formed, month_before, slt, period_label.
  destruct d1 as [y1 m1 ?], d2 as [y2 m2 ?]. cbn [year month].
  intros W1 W2. cbn [String.compare]. rewrite !digit_compare.
  change (Ascii.compare "-" "-") with Eq. cbv iota.
  pose proof (year_digits y1). pose proof (year_digits y2).
  pose proof (Nat.div_mod_eq m1 10). pose proof (Nat.div_mod_eq m2 10).
  assert ((y1 / 1000) mod 10 = y1 / 1000)%nat by (apply Nat.mod_small; lia).
  assert ((y2 / 1000) mod 10 = y2 / 1000)%nat by (apply Nat.mod_small; lia).
  assert (m1 / 10 < 2)%nat by (apply Nat.Div0.div_lt_upper_bound; lia).
  assert (m2 / 10 < 2)%nat by (apply Nat.Div0.div_lt_upper_bound; lia).
  assert ((m1 / 10) mod 10 = m1 / 10)%nat by (apply Nat.mod_small; lia).
  assert ((m2 / 10) mod 10 = m2 / 10)%nat by (apply Nat.mod_small; lia).
  assert (B : forall n, (n mod 10 < 10)%nat)
    by (intros n; apply Nat.mod_upper_bound; lia).
  pose proof (B y1). pose proof (B (y1 / 10)%nat).
  pose proof (B (y1 / 100)%nat). pose proof (B m1).
  pose proof (B y2). pose proof (B (y2 / 10)%nat).
  pose proof (B (y2 / 100)%nat). pose proof (B m2).
  clear B.
  repeat match goal with
         | |- context [Nat.compare ?a ?b] =>
             destruct (Nat.compare_spec a b)
         end;
    split; intros Hc; try discriminate; try reflexivity;
    first [exfalso; lia | lia].
Qed.

(** *** Comparisons of amounts *)

Lemma Qltb_lt (a b : Q) : Qltb a b = true <-> a < b.
Proof.
  unfold Qltb. rewrite negb_true_iff. split.
  - intros H. apply Qnot_le_lt. intros L.
    apply Qle_bool_iff in L. congruence.
  - intros H. destruct (Qle_bool b a) eqn:E; [|reflexivity].
    apply Qle_bool_iff in E. exfalso. now apply (Qlt_not_le a b).
Qed.

Lemma Qltb_ge (a b : Q) : Qltb a b = false <-> b <= a.
Proof.
  unfold Qltb. rewrite negb_false_iff. apply Qle_bool_iff.
Qed.

(** *** Sorted lists *)

Lemma StronglySorted_weaken {A} (R R' : A -> A -> Prop) (l : list A) :
  (forall x y, R x y -> R' x y) ->
  StronglySorted R l -> StronglySorted R' l.
Proof.
  intros HR. induction 1 as [|x l _ IH F]; constructor; [exact IH|].
  eapply Forall_impl; [|exact F]. intros y. apply HR.
Qed.

Lemma StronglySorted_map {A B} (f : A -> B) (R : B -> B -> Prop)
      (l : list A) :
  StronglySorted (fun x y => R (f x) (f y)) l ->
  StronglySorted R (map f l).
Proof.
  induction 1 as [|x l _ IH F]; simpl; constructor; [exact IH|].
  apply Forall_map. exact F.
Qed.



Lemma StronglySorted_nth {A} (R : A -> A -> Prop) (l : list A) :
  StronglySorted R l ->
  forall (i j : nat) (x y : A),
    (i < j)%nat -> nth_error l i = Some x -> nth_error l j = Some y ->
    R x y.
Proof.
  induction 1 as [|a l _ IH F]; intros i j x y Hij Hi Hj.
  - destruct i; discriminate.
  - destruct j as [|j]; [lia|]. simpl in Hj. destruct i as [|i].
    + simpl in Hi. injection Hi as <-.
      rewrite Forall_forall in F. apply F.
      eapply nth_error_In; eassumption.
    + simpl in Hi. apply (IH i j); [lia|assumption|assumption].
Qed.

(** *** Grouping *)

Lemma add_group_keys (P : string -> Prop) (k : string) (a : Q)
      (g : Series) :
  P k -> Forall (fun y => P (fst y)) g ->
  Forall (fun y => P (fst y)) (add_group k a g).
Proof.
  intros Hk. induction 1 as [|[k' s] g Hy F IH]; simpl.
  - repeat constructor. exact Hk.
  - destruct (String.compare k k'); repeat constructor; auto.
Qed.

Lemma add_group_increasing (k : string) (a : Q) (g : Series) :
  keys_increasing g -> keys_increasing (add_group k a g).
Proof.
  unfold keys_increasing.
  induction 1 as [|[k' s] g Hg IH F]; simpl.
  - repeat constructor.
  - destruct (String.compare k k') eqn:E.
    + apply String.compare_eq_iff in E. subst k'.
      constructor; assumption.
    + constructor; [constructor; assumption|].
      constructor; [exact E|].
      eapply Forall_impl; [|exact F].
      intros y Hy. simpl in *. eapply slt_trans; eassumption.
    + constructor; [exact IH|].
      apply (add_group_keys (fun x => slt k' x)); [|exact F].
      now apply slt_gt.
Qed.

Lemma groupby_sum_increasing (col : Row -> option string)
      (df : DataFrame) :
  keys_increasing (groupby_sum col df).
Proof.
  unfold groupby_sum.
  assert (G : forall g, keys_increasing g ->
              keys_increasing
                (fold_left (fun g r =>
                              match col r with
                              | Some k => add_group k (Amount r) g
                              | None => g
                              end) df g)).
  { induction df as [|r df IH]; intros g Hg; simpl; [exact Hg|].
    apply IH. destruct (col r); [now apply add_group_increasing|exact Hg]. }
  apply G. constructor.
Qed.

(** Sorting by label leaves a Series with increasing labels as it is. *)
Lemma sort_index_increasing (s : Series) :
  keys_increasing s -> sort_index s = s.
Proof.
  unfold sort_index.
  induction 1 as [|x l _ IH F]; simpl; [reflexivity|].
  rewrite IH. destruct l as [|y l]; [reflexivity|]. simpl.
  inversion F as [|? ? Hxy _]; subst.
  destruct (String.ltb (fst y) (fst x)) eqn:E; [|reflexivity].
  apply ltb_slt in E. exfalso.
  apply (slt_irrefl (fst x)). eapply slt_trans; eassumption.
Qed.

Lemma monthly_increasing (df : DataFrame) : keys_increasing (monthly df).
Proof.
  unfold monthly. rewrite sort_index_increasing;
    apply groupby_sum_increasing.
Qed.

(** *** Sorting by value *)

Lemma insert_desc_perm (x : string * Q) (l : Series) :
  Permutation (insert_desc x l) (x :: l).
Proof.
  induction l as [|y l IH]; simpl; [reflexivity|].
  destruct (Qltb (snd x) (snd y)); [|reflexivity].
  rewrite IH. apply perm_swap.
Qed.

Lemma sort_values_desc_perm (s : Series) :
  Permutation (sort_values_desc s) s.
Proof.
  unfold sort_values_desc.
  induction s as [|x s IH]; simpl; [reflexivity|].
  rewrite insert_desc_perm. now constructor.
Qed.

Lemma desc_then_key_trans (x y z : string * Q) :
  desc_then_key x y -> desc_then_key y z -> desc_then_key x z.
Proof.
  unfold desc_then_key.
  intros [H1|[E1 K1]] [H2|[E2 K2]].
  - left. eapply Qlt_trans; eassumption.
  - left. now rewrite <- E2.
  - left. now rewrite E1.
  - right. split; [now rewrite E1|eapply slt_trans; eassumption].
Qed.

(** Inserting an entry whose label is below every label of a sorted
    Series keeps it sorted, ties in label order. *)
Lemma insert_desc_sorted (x : string * Q) (l : Series) :
  StronglySorted desc_then_key l ->
  Forall (fun y => slt (fst x) (fst y)) l ->
  StronglySorted desc_then_key (insert_desc x l).
Proof.
  induction 1 as [|y l Hl IH F]; intros K; simpl.
  - repeat constructor.
  - inversion K as [|? ? Kxy Kl]; subst.
    destruct (Qltb (snd x) (snd y)) eqn:E.
    + apply Qltb_lt in E. constructor; [now apply IH|].
      apply Forall_forall. intros z Hz.
      apply (Permutation_in _ (insert_desc_perm x l)) in Hz.
      destruct Hz as [<-|Hz]; [now left|].
      rewrite Forall_forall in F. now apply F.
    + apply Qltb_ge in E.
      assert (Hxy : desc_then_key x y).
      { destruct (Qle_lt_or_eq _ _ E) as [L|Q]; [now left|].
        right. split; [now symmetry|exact Kxy]. }
      constructor; [now constructor|].
      constructor; [exact Hxy|].
      eapply Forall_impl; [|exact F].
      intros z Hz. eapply desc_then_key_trans; eassumption.
Qed.

Lemma sort_values_desc_sorted (s : Series) :
  keys_increasing s -> StronglySorted desc_then_key (sort_values_desc s).
Proof.
  unfold sort_values_desc, keys_increasing.
  induction 1 as [|x s _ IH F]; simpl; [constructor|].
  apply insert_desc_sorted; [exact IH|].
  apply Forall_forall. intros y Hy.
  apply (Permutation_in _ (sort_values_desc_perm s)) in Hy.
  rewrite Forall_forall in F. now apply F.
Qed.

(** Every descending aggregation is sorted by value, ties by label. *)
Lemma grouped_desc_sorted (col : Row -> option string) (df : DataFrame) :
  StronglySorted desc_then_key (sort_values_desc (groupby_sum col df)).
Proof. apply sort_values_desc_sorted, groupby_sum_increasing. Qed.

Lemma desc_then_key_ge (x y : string * Q) :
  desc_then_key x y -> snd y <= snd x.
Proof.
  intros [H|[E _]]; [now apply Qlt_le_weak|].
  rewrite E. apply Qle_refl.
Qed.

Lemma grouped_desc_non_increasing (col : Row -> option string)
      (df : DataFrame) :
  non_increasing (map snd (sort_values_desc (groupby_sum col df))).
Proof.
  apply StronglySorted_map.
  eapply StronglySorted_weaken; [|apply grouped_desc_sorted].
  apply desc_then_key_ge.
Qed.

Lemma with_shares_amounts (tot : Series) (sh : list (string * f64)) :
  map amount (with_shares tot sh) = map snd tot.
Proof. unfold with_shares. rewrite map_map. reflexivity. Qed.

Example by_type_of_one_type :
  by_type (summarize ledger_food)
  = [ mkShareEntry "Food" 600 (Some (Fin 100.0)) ].
Proof. reflexivity. Qed.

Lemma shell_by_station_non_increasing (df : DataFrame) :
  non_increasing (map snd (shell_by_station (summarize df))).
Proof. apply grouped_desc_non_increasing. Qed.

(** *** Sums *)




Lemma sum_amounts_from (df : DataFrame) (a : Q) :
  fold_left (fun acc r => acc + Amount r) df a == a + sum_amounts df.
Proof.
  unfold sum_amounts. revert a.
  induction df as [|r df IH]; intros a; simpl; [ring|].
  rewrite (IH (a + Amount r)), (IH (0 + Amount r)). ring.
Qed.

Lemma sum_amounts_cons (r : Row) (df : DataFrame) :
  sum_amounts (r :: df) == Amount r + sum_amounts df.
Proof.
  unfold sum_amounts at 1. simpl. rewrite sum_amounts_from. ring.
Qed.


Lemma filter_all {A} (f : A -> bool) (l : list A) :
  forallb f l = true -> filter f l = l.
Proof.
  induction l as [|x l IH]; simpl; [reflexivity|].
  intros H. apply andb_prop in H as [-> H]. now rewrite IH.
Qed.



(** *** Extreme months *)

Section FirstBest.

Variable better : Q -> Q -> bool.
(** [worse a b]: [a] loses to [b]; [not_better a b]: [a] does not beat
    [b]. *)
Variables worse not_better : Q -> Q -> Prop.
Hypothesis better_true : forall a b, better a b = true -> worse b a.
Hypothesis better_false : forall a b, better a b = false -> not_better a b.
Hypothesis worse_trans : forall a b c, worse a b -> worse b c -> worse a c.
Hypothesis not_better_worse :
  forall a b c, not_better a b -> worse b c -> worse a c.


End FirstBest.













(** *** Shares *)

Lemma round_half_even_comp (x y : Q) :
  x == y -> round_half_even x = round_half_even y.
Proof.
  intros H. unfold round_half_even.
  rewrite (Qfloor_comp x y H).
  assert (H' : x - inject_Z (Qfloor y) == y - inject_Z (Qfloor y))
    by now rewrite H.
  now rewrite (Qcompare_comp _ _ H' (1 # 2) (1 # 2) (Qeq_refl _)).
Qed.

Lemma round1q_comp (x y : Q) : x == y -> round1q x = round1q y.
Proof.
  intros H. unfold round1q.
  rewrite (round_half_even_comp (x * 10) (y * 10)); [reflexivity|].
  now rewrite H.
Qed.

Lemma share_nonzero_total (v total : Q) :
  ~ total == 0 -> share v total = Fin (round1q (100 * v / total)).
Proof.
  intros H. unfold share, div_finite.
  destruct (Qeq_bool total 0) eqn:E.
  - apply Qeq_bool_iff in E. contradiction.
  - simpl. f_equal. apply round1q_comp. field. exact H.
Qed.

Lemma share_zero_total (v total : Q) :
  total == 0 -> share v total = zero_total_share v.
Proof.
  intros H. unfold share, div_finite, zero_total_share.
  apply Qeq_bool_iff in H. rewrite H.
  now destruct (v ?= 0).
Qed.

Lemma keys_increasing_NoDup (s : Series) :
  keys_increasing s -> NoDup (map fst s).
Proof.
  induction 1 as [|x l _ IH F]; simpl; constructor; [|exact IH].
  intros Hin. apply in_map_iff in Hin as (y & E & Hy).
  rewrite Forall_forall in F. specialize (F _ Hy). rewrite E in F.
  now apply (slt_irrefl (fst x)).
Qed.

Lemma grouped_desc_NoDup (col : Row -> option string) (df : DataFrame) :
  NoDup (map fst (sort_values_desc (groupby_sum col df))).
Proof.
  eapply Permutation_NoDup.
  - apply Permutation_map, Permutation_sym, sort_values_desc_perm.
  - apply keys_increasing_NoDup, groupby_sum_increasing.
Qed.

Lemma loc_share_series (tot : Series) (total : Q) (k : string) (v : Q) :
  NoDup (map fst tot) -> In (k, v) tot ->
  loc k (share_series tot total) = Some (share v total).
Proof.
  induction tot as [|[k' v'] tot IH]; intros N Hin; [destruct Hin|].
  simpl in N. inversion N as [|? ? Hk N']; subst. simpl.
  destruct (String.eqb_spec k k') as [->|Hne].
  - destruct Hin as [E|Hin]; [now injection E as ->|].
    exfalso. apply Hk. now apply (in_map fst) in Hin.
  - destruct Hin as [E|Hin]; [injection E as ? ?; congruence|].
    now apply IH.
Qed.

(** Every entry of a share list carries the share of its own amount. *)
Lemma with_shares_entry (col : Row -> option string) (df : DataFrame)
      (total : Q) (e : ShareEntry) :
  let tot := sort_values_desc (groupby_sum col df) in
  In e (with_shares tot (share_series tot total)) ->
  share_pct e = Some (share (amount e) total).
Proof.
  intros tot Hin. unfold with_shares in Hin.
  apply in_map_iff in Hin as ([k v] & <- & Hin). simpl.
  apply loc_share_series; [apply grouped_desc_NoDup|exact Hin].
Qed.

End LedgerFacts.

(** * The aggregation in float64 *)

Module FrameFacts.
Import Num Float64 Frame FrameSamples LedgerFacts.
Import Ledger(slt).
Local Open Scope Q_scope.
Local Open Scope list_scope.

(** *** Grouping *)

Lemma add_row_labels (P : string -> Prop) (k : string) (a : f64)
      (g : list (string * list f64)) :
  P k -> Forall (fun y => P (fst y)) g ->
  Forall (fun y => P (fst y)) (add_row k a g).
Proof.
  intros Hk. induction 1 as [|[k' vs] g Hy F IH]; simpl.
  - repeat constructor. exact Hk.
  - destruct (String.compare k k'); repeat constructor; auto.
Qed.

Lemma add_row_increasing (k : string) (a : f64)
      (g : list (string * list f64)) :
  labels_increasing g -> labels_increasing (add_row k a g).
Proof.
  unfold labels_increasing.
  induction 1 as [|[k' vs] g Hg IH F]; simpl.
  - repeat constructor.
  - destruct (String.compare k k') eqn:E.
    + apply String.compare_eq_iff in E. subst k'.
      constructor; assumption.
    + constructor; [constructor; assumption|].
      constructor; [exact E|].
      eapply Forall_impl; [|exact F].
      intros y Hy. simpl in *. eapply slt_trans; eassumption.
    + constructor; [exact IH|].
      apply (add_row_labels (fun x => slt k' x)); [|exact F].
      now apply slt_gt.
Qed.

Lemma group_rows_increasing (col : Row -> option string) (df : DataFrame) :
  labels_increasing (group_rows col df).
Proof.
  unfold group_rows.
  assert (G : forall g, labels_increasing g ->
              labels_increasing
                (fold_left (fun g r =>
                              match col r with
                              | Some k => add_row k (Amount r) g
                              | None => g
                              end) df g)).
  { induction df as [|r df IH]; intros g Hg; simpl; [exact Hg|].
    apply IH. destruct (col r); [now apply add_row_increasing|exact Hg]. }
  apply G. constructor.
Qed.

Lemma labels_increasing_NoDup {V : Type} (s : list (string * V)) :
  labels_increasing s -> NoDup (map fst s).
Proof.
  induction 1 as [|x l _ IH F]; simpl; constructor; [|exact IH].
  intros Hin. apply in_map_iff in Hin as (y & E & Hy).
  rewrite Forall_forall in F. specialize (F _ Hy). rewrite E in F.
  now apply (slt_irrefl (fst x)).
Qed.

Section Routines.
Variable series_sum : list f64 -> f64.
Variable group_sum : list f64 -> f64.
Variable argsort_desc : list f64 -> list nat.
Hypothesis sorting : sorts_desc argsort_desc.

Lemma frame_groupby_sum_increasing (col : Row -> option string) (df : DataFrame) :
  labels_increasing (groupby_sum group_sum col df).
Proof.
  unfold groupby_sum, labels_increasing.
  apply StronglySorted_map. cbn [fst].
  apply group_rows_increasing.
Qed.

Lemma nth_positions {A : Type} (d : A) (l : list A) :
  map (fun i => nth i l d) (seq 0 (List.length l)) = l.
Proof.
  induction l as [|x l IH]; [reflexivity|].
  cbn [List.length seq map nth]. f_equal.
  rewrite <- seq_shift, map_map. exact IH.
Qed.

Lemma frame_sort_values_desc_perm (s : Series) :
  Permutation (sort_values_desc argsort_desc s) s.
Proof.
  unfold sort_values_desc.
  destruct (sorting (map snd s)) as [P _].
  rewrite length_map in P.
  rewrite <- (nth_positions (EmptyString, NaN) s) at 2.
  now apply Permutation_map.
Qed.


Lemma frame_sort_values_desc_NoDup (col : Row -> option string) (df : DataFrame) :
  NoDup (map fst (sort_values_desc argsort_desc (groupby_sum group_sum col df))).
Proof.
  eapply Permutation_NoDup.
  - apply Permutation_map, Permutation_sym, frame_sort_values_desc_perm.
  - apply labels_increasing_NoDup, frame_groupby_sum_increasing.
Qed.

Lemma frame_sort_index_increasing (s : Series) :
  labels_increasing s -> sort_index s = s.
Proof.
  unfold sort_index.
  induction 1 as [|x l _ IH F]; simpl; [reflexivity|].
  rewrite IH. destruct l as [|y l]; [reflexivity|]. simpl.
  inversion F as [|? ? Hxy _]; subst.
  destruct (String.ltb (fst y) (fst x)) eqn:E; [|reflexivity].
  apply ltb_slt in E. exfalso.
  apply (slt_irrefl (fst x)). eapply slt_trans; eassumption.
Qed.

Lemma monthly_groups (df : DataFrame) :
  monthly group_sum df = groupby_sum group_sum Month df.
Proof. apply frame_sort_index_increasing, frame_groupby_sum_increasing. Qed.

End Routines.

(** *** One choice of the routines *)

Lemma sum_left_to_right_summation : summation sum_left_to_right.
Proof. repeat split. Qed.

Lemma beforeb_spec (x y : f64) : beforeb x y = true <-> before x y.
Proof.
  destruct x, y; cbn; try tauto; try (split; [discriminate|tauto]).
  apply Qle_bool_iff.
Qed.

Lemma before_total (x y : f64) : beforeb x y = false -> before y x.
Proof.
  destruct x as [a| | |], y as [b| | |]; cbn; try tauto; try discriminate.
  intros H. destruct (Qlt_le_dec a b) as [L|L].
  - now apply Qlt_le_weak.
  - apply Qle_bool_iff in L. congruence.
Qed.

Lemma before_trans (x y z : f64) : before x y -> before y z -> before x z.
Proof.
  destruct x, y, z; cbn; try tauto. apply (fun a b => Qle_trans _ _ _ b a).
Qed.

Lemma insert_position_perm (x : nat * f64) (l : list (nat * f64)) :
  Permutation (x :: l) (insert_position x l).
Proof.
  induction l as [|y l IH]; simpl; [reflexivity|].
  destruct (beforeb (snd x) (snd y)); [reflexivity|].
  rewrite perm_swap. now constructor.
Qed.

Lemma insert_position_sorted (x : nat * f64) (l : list (nat * f64)) :
  StronglySorted (fun a b => before (snd a) (snd b)) l ->
  StronglySorted (fun a b => before (snd a) (snd b)) (insert_position x l).
Proof.
  induction 1 as [|y l Hl IH F]; simpl; [repeat constructor|].
  destruct (beforeb (snd x) (snd y)) eqn:E.
  - apply beforeb_spec in E.
    constructor; [now constructor|]. constructor; [exact E|].
    eapply Forall_impl; [|exact F]. intros z. now apply before_trans.
  - apply before_total in E. constructor; [exact IH|].
    apply Forall_forall. intros z Hz.
    apply (Permutation_in _ (Permutation_sym (insert_position_perm x l))) in Hz.
    destruct Hz as [<-|Hz]; [exact E|].
    rewrite Forall_forall in F. now apply F.
Qed.

Lemma map_fst_combine_eq {A B : Type} (a : list A) (b : list B) :
  List.length a = List.length b -> map fst (combine a b) = a.
Proof.
  revert b. induction a as [|x a IH]; intros [|y b] H; simpl in *;
    try reflexivity; try discriminate.
  f_equal. apply IH. now injection H.
Qed.

Lemma insertion_argsort_sorts : sorts_desc insertion_argsort.
Proof.
  intros vs. unfold insertion_argsort.
  set (ps := combine (seq 0 (List.length vs)) vs).
  assert (P : Permutation (fold_right insert_position [] ps) ps).
  { induction ps as [|p ps IH]; simpl; [constructor|].
    rewrite <- insert_position_perm. now constructor. }
  assert (S : StronglySorted (fun a b => before (snd a) (snd b))
                (fold_right insert_position [] ps)).
  { clear P. induction ps as [|p ps IH]; simpl; [constructor|].
    now apply insert_position_sorted. }
  assert (V : Forall (fun p => nth (fst p) vs NaN = snd p) ps).
  { unfold ps. apply Forall_forall. intros [i v] Hin. cbn [fst snd].
    apply In_nth with (d := (O, NaN)) in Hin as (n & Hn & E).
    rewrite combine_nth in E by now rewrite length_seq.
    rewrite length_combine, length_seq, Nat.min_id in Hn.
    injection E as E1 E2. rewrite seq_nth in E1 by exact Hn.
    cbn in E1. subst i. exact E2. }
  split.
  - rewrite (Permutation_map fst P). unfold ps.
    rewrite map_fst_combine_eq; [reflexivity|]. now rewrite length_seq.
  - rewrite map_map. erewrite map_ext_in.
    + apply StronglySorted_map. exact S.
    + intros p Hp. cbn beta.
      apply (Permutation_in _ P) in Hp.
      rewrite Forall_forall in V. now apply V.
Qed.

(** *** The order of the summary lists *)







(** *** Ties *)




(** *** Shares *)

Lemma frame_loc_share_series (tot : Series) (t : f64) (k : string) (v : f64) :
  NoDup (map fst tot) -> In (k, v) tot ->
  loc (share_series tot t) k = Some (share v t).
Proof.
  induction tot as [|[k' v'] tot IH]; intros N Hin; [destruct Hin|].
  inversion N as [|? ? Nk N']; subst. cbn [share_series map loc fst snd].
  destruct Hin as [E|Hin].
  - injection E as -> ->. now rewrite String.eqb_refl.
  - destruct (String.eqb_spec k k') as [->|_]; [|now apply IH].
    exfalso. apply Nk. apply in_map_iff. now exists (k', v).
Qed.

Lemma share_of_entry (tot : Series) (t : f64) (e : ShareEntry) :
  NoDup (map fst tot) ->
  In e (with_shares tot (share_series tot t)) ->
  share_pct e = Some (share (amount e) t).
Proof.
  intros N Hin. unfold with_shares in Hin.
  apply in_map_iff in Hin as ([k v] & <- & Hin). cbn [share_pct amount fst snd].
  now apply frame_loc_share_series.
Qed.

Lemma frame_share_zero_total (a t : Q) :
  t == 0 -> share (Fin a) (Fin t) = signed_inf (a ?= 0).
Proof.
  intros Z. unfold share. cbn [f64_div].
  apply Qeq_bool_iff in Z. rewrite Z.
  destruct (a ?= 0); reflexivity.
Qed.

Lemma entry_of_group (tot : Series) (sh : Series) (k : string) (v : f64) :
  In (k, v) tot -> In (mkShare k v (loc sh k)) (with_shares tot sh).
Proof.
  intros Hin. unfold with_shares.
  apply in_map_iff. now exists (k, v).
Qed.

(** C4 fails as stated.  With purchases of 23 and 57 the share of 23 is
    the float64 28.7, because 23 / 80 * 100 is 28.749999999999996 in
    float64, while round(100 * 23 / 80, 1) is 28.8.  With a purchase of 5
    and a refund of 5 the total is 0 and the two shares are +inf and
    -inf: nothing is substituted and the groups do not agree. *)
Lemma C4_counterexample :
  (forall (series_sum group_sum : list f64 -> f64)
          (argsort_desc : list f64 -> list nat),
      summation series_sum -> summation group_sum ->
      sorts_desc argsort_desc ->
      let S := summarize series_sum group_sum argsort_desc ledger_23_57 in
      exists (e : ShareEntry) (t x : Q),
        In e (by_type S) /\ amount e = Fin 23
        /\ total_spend S = Fin t /\ t == 80
        /\ share_pct e = Some (Fin x)
        /\ x == 8078331831595827 # 281474976710656
        /\ ~ x == exact_share 23 t)
  /\ (forall (series_sum group_sum : list f64 -> f64)
             (argsort_desc : list f64 -> list nat),
         summation series_sum -> summation group_sum ->
         sorts_desc argsort_desc ->
         let S := summarize series_sum group_sum argsort_desc ledger_cancel in
         exists e1 e2 : ShareEntry,
           In e1 (by_type S) /\ In e2 (by_type S)
           /\ total_spend S = Fin 0
           /\ share_pct e1 = Some PInf /\ share_pct e2 = Some NInf).
Proof.
  split.
  - intros ss gs srt (_ & _ & S2) (_ & G1 & _) Srt S.
    assert (T : total_spend S = rnd (23 + 57)).
    { unfold S. cbn [summarize total_spend]. unfold total.
      cbn [map ledger_23_57 Amount]. rewrite S2 by reflexivity.
      reflexivity. }
    assert (G : In ("A", Fin 23) (type_tot gs srt ledger_23_57)).
    { unfold type_tot.
      apply (Permutation_in _ (Permutation_sym
                                 (frame_sort_values_desc_perm srt Srt _))).
      unfold groupby_sum.
      change (group_rows Type_ ledger_23_57)
        with [("A", [Fin 23]); ("B", [Fin 57])].
      cbn [map fst snd]. rewrite !G1 by reflexivity. left. reflexivity. }
    exists (mkShare "A" (Fin 23)
              (loc (share_series (type_tot gs srt ledger_23_57)
                      (total ss ledger_23_57)) "A")),
           80, (8078331831595827 # 281474976710656).
    assert (T80 : total_spend S = Fin 80) by (rewrite T; vm_compute; reflexivity).
    split; [apply entry_of_group, G|].
    split; [reflexivity|].
    split; [exact T80|].
    split; [reflexivity|].
    split.
    { cbn [share_pct].
      change (total ss ledger_23_57) with (total_spend S). rewrite T80.
      rewrite (frame_loc_share_series _ _ "A" (Fin 23));
        [|apply frame_sort_values_desc_NoDup, Srt|exact G].
      vm_compute. reflexivity. }
    split; [reflexivity|]. vm_compute. discriminate.
  - intros ss gs srt (_ & _ & S2) (_ & G1 & _) Srt S.
    assert (T : total_spend S = Fin 0).
    { unfold S. cbn [summarize total_spend]. unfold total.
      cbn [map ledger_cancel Amount]. rewrite S2 by reflexivity.
      vm_compute. reflexivity. }
    assert (G : forall k v, In (k, v) [("Food", Fin 5); ("Refund", Fin (-5))] ->
                In (k, v) (type_tot gs srt ledger_cancel)).
    { intros k v Hin. unfold type_tot.
      apply (Permutation_in _ (Permutation_sym
                                 (frame_sort_values_desc_perm srt Srt _))).
      unfold groupby_sum.
      change (group_rows Type_ ledger_cancel)
        with [("Food", [Fin 5]); ("Refund", [Fin (-5)])].
      cbn [map fst snd]. rewrite !G1 by reflexivity. exact Hin. }
    exists (mkShare "Food" (Fin 5)
              (loc (share_series (type_tot gs srt ledger_cancel)
                      (total ss ledger_cancel)) "Food")),
           (mkShare "Refund" (Fin (-5))
              (loc (share_series (type_tot gs srt ledger_cancel)
                      (total ss ledger_cancel)) "Refund")).
    split; [apply entry_of_group, G; now left|].
    split; [apply entry_of_group, G; right; now left|].
    split; [exact T|].
    cbn [share_pct].
    change (total ss ledger_cancel) with (total_spend S). rewrite T.
    split.
    + rewrite (frame_loc_share_series _ _ "Food" (Fin 5));
        [reflexivity|apply frame_sort_values_desc_NoDup, Srt|apply G; now left].
    + rewrite (frame_loc_share_series _ _ "Refund" (Fin (-5)));
        [reflexivity|apply frame_sort_values_desc_NoDup, Srt
        |apply G; right; now left].
Qed.

(** C4 as amended: the share of every entry of [by_type] and
    [by_payment] is the float64 outcome of [amount / total * 100] rounded
    to one decimal by [Series.round], computed from the entry's own amount
    and the grand total; it can differ from round(100 * amount / total, 1)
    in the last digit.  When the total is 0 nothing is raised and nothing
    is substituted: the share of a finite amount is +inf, -inf or NaN as
    the amount is positive, negative or zero. *)
Theorem C4_share_pct
        (series_sum group_sum : list f64 -> f64)
        (argsort_desc : list f64 -> list nat)
        (df : DataFrame) (e : ShareEntry) :
  sorts_desc argsort_desc ->
  let S := summarize series_sum group_sum argsort_desc df in
  In e (by_type S) \/ In e (by_payment S) ->
  share_pct e
  = Some (f64_round1
            (f64_mul (f64_div (amount e) (total_spend S)) (Fin 100)))
  /\ forall t a : Q,
       total_spend S = Fin t -> t == 0 -> amount e = Fin a ->
       share_pct e = Some (signed_inf (a ?= 0)).
Proof.
  intros Srt S Hin.
  assert (E : share_pct e = Some (share (amount e) (total_spend S))).
  { unfold S in *. cbn [summarize by_type by_payment total_spend] in *.
    destruct Hin as [Hin|Hin];
      (eapply share_of_entry; [|exact Hin]);
      apply frame_sort_values_desc_NoDup, Srt. }
  split; [exact E|].
  intros t a Ht Z Ha. rewrite E, Ht, Ha. now rewrite frame_share_zero_total.
Qed.

Lemma C4_witness :
  share_pct (mkShare "Food" (Fin 600) (Some (Fin 100)))
  = Some (f64_round1
            (f64_mul
               (f64_div (amount (mkShare "Food" (Fin 600) (Some (Fin 100))))
                  (total_spend
                     (summarize sum_left_to_right sum_left_to_right
                        insertion_argsort ledger_food)))
               (Fin 100))).
Proof.
  refine (proj1 (C4_share_pct sum_left_to_right sum_left_to_right
                   insertion_argsort ledger_food
                   (mkShare "Food" (Fin 600) (Some (Fin 100)))
                   insertion_argsort_sorts (or_introl _))).
  vm_compute. left. reflexivity.
Defined.

(** *** Sum conservation *)

Lemma sum_reals_app (a b : list Q) :
  sum_reals (a ++ b) == sum_reals a + sum_reals b.
Proof.
  induction a as [|x a IH]; simpl; [ring|]. rewrite IH. ring.
Qed.

Lemma sum_reals_perm (a b : list Q) :
  Permutation a b -> sum_reals a == sum_reals b.
Proof.
  induction 1 as [|x a b _ IH|x y a|a b c _ IH1 _ IH2]; simpl.
  - reflexivity.
  - now rewrite IH.
  - ring.
  - now rewrite IH1.
Qed.

Lemma finite_values_app (a b : list f64) :
  finite_values (a ++ b) = finite_values a ++ finite_values b.
Proof. apply flat_map_app. Qed.

(** The real total of the values of the groups. *)
Lemma add_row_total (k : string) (a : f64) (g : list (string * list f64)) :
  sum_reals (map (fun x => sum_reals (finite_values (snd x))) (add_row k a g))
  == sum_reals (map (fun x => sum_reals (finite_values (snd x))) g)
     + sum_reals (finite_values [a]).
Proof.
  induction g as [|[k' vs] g IH]; cbn [add_row map snd sum_reals fold_right].
  - ring.
  - destruct (String.compare k k');
      cbn [map snd sum_reals fold_right].
    + rewrite finite_values_app, sum_reals_app. unfold sum_reals. ring.
    + unfold sum_reals. ring.
    + fold (sum_reals
              (map (fun x => sum_reals (finite_values (snd x)))
                 (add_row k a g))).
      rewrite IH. unfold sum_reals. ring.
Qed.

Lemma group_rows_snoc (col : Row -> option string) (df : DataFrame)
      (r : Row) :
  group_rows col (df ++ [r])
  = match col r with
    | Some k => add_row k (Amount r) (group_rows col df)
    | None => group_rows col df
    end.
Proof. unfold group_rows. now rewrite fold_left_app. Qed.

Lemma groups_total (col : Row -> option string) (df : DataFrame) :
  sum_reals (map (fun x => sum_reals (finite_values (snd x)))
               (group_rows col df))
  == keyed_total col df.
Proof.
  unfold keyed_total.
  induction df as [|r df IH] using rev_ind; [reflexivity|].
  rewrite group_rows_snoc, filter_app, map_app, finite_values_app,
    sum_reals_app, <- IH.
  cbn [filter]. unfold has_key.
  destruct (col r) as [k|]; cbn [map].
  - apply add_row_total.
  - cbn. ring.
Qed.

Lemma Qabs_sum (a b c d x y : Q) :
  Qabs (a - b) <= x -> Qabs (c - d) <= y ->
  Qabs (a + c - (b + d)) <= x + y.
Proof.
  intros H1 H2. apply Qabs_Qle_condition in H1, H2.
  apply Qabs_Qle_condition. destruct H1, H2. split; lra.
Qed.

Lemma group_sums_within (group_sum : list f64 -> f64)
      (tol : list f64 -> Q) (g : list (string * list f64)) :
  (forall k vs, In (k, vs) g ->
                within (tol vs) (group_sum vs) (finite_values vs)) ->
  exists vals : list Q,
    map snd (map (fun x => (fst x, group_sum (snd x))) g) = map Fin vals
    /\ Qabs (sum_reals vals
             - sum_reals (map (fun x => sum_reals (finite_values (snd x))) g))
       <= sum_reals (map (fun x => tol (snd x)) g).
Proof.
  induction g as [|[k vs] g IH]; intros W.
  - exists []. split; [reflexivity|]. cbn. apply Qle_bool_iff. reflexivity.
  - destruct IH as (vals & E & B); [intros; apply (W k0); now right|].
    destruct (W k vs (or_introl eq_refl)) as (v & Ev & Bv).
    exists (v :: vals). split.
    + cbn [map fst snd]. now rewrite Ev, E.
    + cbn [map snd sum_reals fold_right].
      now apply Qabs_sum.
Qed.

Lemma conserves_perm (group_sum : list f64 -> f64) (tol : list f64 -> Q)
      (t : f64) (col : Row -> option string) (df : DataFrame)
      (out : Series) :
  In col dimensions ->
  within (tol (map Amount df)) t (finite_values (map Amount df)) ->
  (forall k vs, In (k, vs) (group_rows col df) ->
                within (tol vs) (group_sum vs) (finite_values vs)) ->
  Permutation out (groupby_sum group_sum col df) ->
  conserves tol t col df out.
Proof.
  intros _ (tv & Et & Bt) W P.
  destruct (group_sums_within group_sum tol _ W) as (vals & E & B).
  rewrite groups_total in B.
  assert (P1 : Permutation (map snd out) (map Fin vals)).
  { rewrite <- E. now apply Permutation_map. }
  apply Permutation_map_inv in P1 as (vals' & E' & P').
  exists vals'. split; [exact E'|].
  assert (B' : Qabs (sum_reals vals' - keyed_total col df)
               <= group_tolerance tol col df).
  { unfold group_tolerance.
    now rewrite <- (sum_reals_perm _ _ P'). }
  split; [exact B'|].
  intros K. exists tv. split; [exact Et|].
  assert (F : keyed_total col df == sum_reals (finite_values (map Amount df))).
  { unfold keyed_total. now rewrite (filter_all _ _ K). }
  rewrite F in B'.
  apply Qabs_Qle_condition in B', Bt. apply Qabs_Qle_condition.
  destruct B', Bt. split; lra.
Qed.

(** C5 fails as stated: a row of 100 with a blank type belongs to no
    type group, so there is no type sum at all while the grand total is
    100. *)
Lemma C5_counterexample :
  (forall (series_sum group_sum : list f64 -> f64)
          (argsort_desc : list f64 -> list nat),
      summation series_sum -> sorts_desc argsort_desc ->
      type_tot group_sum argsort_desc ledger_blank_type = []
      /\ total series_sum ledger_blank_type = Fin 100)
  /\ ~ Qabs (sum_reals [] - 100) <= 1.
Proof.
  split.
  - intros ss gs srt (_ & S1 & _) Srt. split.
    + unfold type_tot, sort_values_desc.
      change (groupby_sum gs Type_ ledger_blank_type) with (@nil (string * f64)).
      destruct (Srt []) as [P _]. cbn in P.
      apply Permutation_sym, Permutation_nil in P. cbn [map].
      rewrite P. reflexivity.
    + unfold total. cbn [map ledger_blank_type Amount]. now apply S1.
  - vm_compute. intros H. now apply H.
Qed.

(** C5 as amended: for each grouping dimension the sums of the groups are
    finite and add up to the real total of the rows that have a key in
    that dimension, within the tolerance of the group sums, whenever
    every sum of the aggregation is within its tolerance of the real sum
    of the values it adds; rows with a blank type, a blank payment method
    or no date belong to no group.  When every row has a key, as for
    merchant and area, the group sums add up to the grand total within
    the two tolerances. *)
Theorem C5_sum_conservation
        (series_sum group_sum : list f64 -> f64)
        (argsort_desc : list f64 -> list nat)
        (tol : list f64 -> Q) (df : DataFrame) :
  sorts_desc argsort_desc ->
  sums_within series_sum group_sum tol df ->
  let t := total series_sum df in
  conserves tol t Month df (monthly group_sum df)
  /\ conserves tol t Type_ df (type_tot group_sum argsort_desc df)
  /\ conserves tol t Payment_type df (pay_tot group_sum argsort_desc df)
  /\ conserves tol t Merchant df (merch_tot group_sum argsort_desc df)
  /\ conserves tol t Area df (area_tot group_sum argsort_desc df)
  /\ forallb (has_key Merchant) df = true
  /\ forallb (has_key Area) df = true.
Proof.
  intros Srt [Ws Wg] t.
  assert (D : forall col, In col dimensions ->
              conserves tol t col df
                (sort_values_desc argsort_desc (groupby_sum group_sum col df))).
  { intros col Hc. apply (conserves_perm group_sum); auto.
    - intros k vs. now apply Wg.
    - now apply frame_sort_values_desc_perm. }
  split.
  { rewrite monthly_groups.
    apply (conserves_perm group_sum); auto.
    - now left.
    - intros k vs. apply Wg. now left. }
  unfold type_tot, pay_tot, merch_tot, area_tot, dimensions in *.
  repeat split; try (apply D; cbn; tauto);
    apply forallb_forall; intros r _; reflexivity.
Qed.

Lemma C5_witness :
  conserves (fun _ => 0) (total sum_left_to_right ledger_food) Type_
    ledger_food (type_tot sum_left_to_right insertion_argsort ledger_food).
Proof.
  refine (proj1 (proj2 (C5_sum_conservation sum_left_to_right
                          sum_left_to_right insertion_argsort (fun _ => 0)
                          ledger_food insertion_argsort_sorts _))).
  split.
  - exists 600. split; [vm_compute; reflexivity|].
    apply Qle_bool_iff. vm_compute. reflexivity.
  - intros col k vs Hc Hin.
    assert (E : vs = [Fin 100; Fin 200] \/ vs = [Fin 300]
                \/ vs = [Fin 100; Fin 200; Fin 300]
                \/ vs = [Fin 100; Fin 300] \/ vs = [Fin 200]).
    { cbn in Hc.
      destruct Hc as [<-|[<-|[<-|[<-|[<-|[]]]]]]; vm_compute in Hin;
        repeat (destruct Hin as [Hin|Hin];
                [injection Hin as _ <-; tauto|]); destruct Hin. }
    destruct E as [->|[->|[->|[->| ->]]]];
      eexists; (split; [vm_compute; reflexivity|]);
      apply Qle_bool_iff; vm_compute; reflexivity.
Defined.

End FrameFacts.

(** * Properties of the amount coercion *)

Module CoercionFacts.
Import Num Coercion.
Local Open Scope Q_scope.

Section WithRecognizer.

Variable floatify : string -> option f64.

Lemma fillna0_not_nan (x : f64) : is_nan (fillna0 x) = false.
Proof. now destruct x. Qed.

Lemma coerce_non_numeric (c : cell) :
  non_numeric floatify c = true -> coerce_amount floatify c = Fin 0.
Proof.
  unfold coerce_amount, fillna0.
  destruct c as [|x|s]; simpl; [reflexivity|now intros ->|].
  destruct (floatify s) as [x|]; [now intros ->|reflexivity].
Qed.

Lemma coerce_numeric (c : cell) :
  non_numeric floatify c = false ->
  coerce_amount floatify c = to_numeric_coerce floatify c.
Proof.
  unfold coerce_amount, fillna0.
  destruct c as [|x|s]; simpl; [discriminate|now intros ->|].
  destruct (floatify s) as [x|]; [now intros ->|discriminate].
Qed.

End WithRecognizer.

(** A cell whose text is read as infinity is coerced to infinity. *)
Lemma coerce_text_infinity (floatify : string -> option f64) (s : string) :
  floatify s = Some PInf -> coerce_amount floatify (Text s) = PInf.
Proof. intros H. unfold coerce_amount. simpl. now rewrite H. Qed.

(** C9 fails as stated: the text inf is read as infinity, and the cell
    comes out of the coercion as infinity, which is not finite. *)
Lemma C9_counterexample :
  ~ forall (floatify : string -> option f64) (c : cell),
      is_finite (coerce_amount floatify c) = true.
Proof.
  intros H. specialize (H special_words (Text "inf")).
  discriminate H.
Qed.

(** C9 as amended: the coercion is total and row by row.  A cell that
    holds no number becomes 0; any other cell keeps the number it holds;
    the result is never NaN.  It is finite exactly when the cell does not
    hold an infinity: an infinite value passes through unchanged. *)
Theorem C9_coercion (floatify : string -> option f64) (col : list cell) :
  List.length (coerce_column floatify col) = List.length col
  /\ forall (i : nat) (c : cell),
       nth_error col i = Some c ->
       exists x : f64,
         nth_error (coerce_column floatify col) i = Some x
         /\ is_nan x = false
         /\ (non_numeric floatify c = true -> x = Fin 0)
         /\ (non_numeric floatify c = false ->
             x = to_numeric_coerce floatify c)
         /\ (is_finite x = false <->
             to_numeric_coerce floatify c = PInf
             \/ to_numeric_coerce floatify c = NInf).
Proof.
  unfold coerce_column. split; [apply length_map|].
  intros i c Hi. exists (coerce_amount floatify c).
  split; [now apply map_nth_error|].
  split; [apply fillna0_not_nan|].
  split; [apply coerce_non_numeric|].
  split; [apply coerce_numeric|].
  unfold coerce_amount, fillna0.
  destruct (to_numeric_coerce floatify c); simpl; split;
    intros H; try discriminate; try destruct H; try discriminate; auto.
Qed.

Lemma C9_witness :
  nth_error [Number (Fin 250); Text "n/a"; Blank] 1 = Some (Text "n/a")
  /\ exists x : f64,
       nth_error (coerce_column (fun _ => None)
                    [Number (Fin 250); Text "n/a"; Blank]) 1 = Some x
       /\ is_nan x = false
       /\ (non_numeric (fun _ => None) (Text "n/a") = true -> x = Fin 0)
       /\ (non_numeric (fun _ => None) (Text "n/a") = false ->
           x = to_numeric_coerce (fun _ => None) (Text "n/a"))
       /\ (is_finite x = false <->
           to_numeric_coerce (fun _ => None) (Text "n/a") = PInf
           \/ to_numeric_coerce (fun _ => None) (Text "n/a") = NInf).
Proof.
  split; [reflexivity|].
  apply (proj2 (C9_coercion (fun _ => None)
                  [Number (Fin 250); Text "n/a"; Blank]) 1%nat (Text "n/a")).
  reflexivity.
Defined.

End CoercionFacts.

(** * Further properties of the location parser *)

Module LocationExtras.
Import Py Location LocationFacts Chars.

(** *** Stripping and collapsing *)

Lemma rstrip_empty_iff (p : ascii -> bool) (s : string) :
  rstrip_by p s = "" <-> lstrip_by p s = "".
Proof.
  induction s as [|c r IH]; simpl; [tauto|].
  destruct (p c); rewrite ?andb_true_r, ?andb_false_r.
  - destruct (rstrip_by p r); simpl.
    + split; intros _; [now apply IH|reflexivity].
    + split; intros H; [discriminate|].
      apply IH in H. discriminate.
  - split; discriminate.
Qed.

Lemma rstrip_cons_keep (p : ascii -> bool) (c : ascii) (r : string) :
  p c = false -> rstrip_by p (String c r) = String c (rstrip_by p r).
Proof. intros H. simpl. now rewrite H, andb_false_r. Qed.

Lemma rstrip_cons_blank (p : ascii -> bool) (c : ascii) (r : string) :
  p c = true -> lstrip_by p r = "" -> rstrip_by p (String c r) = "".
Proof.
  intros H B. apply rstrip_empty_iff in B. simpl. now rewrite B, H.
Qed.

Lemma rstrip_cons_more (p : ascii -> bool) (c : ascii) (r : string) :
  lstrip_by p r <> "" -> rstrip_by p (String c r) = String c (rstrip_by p r).
Proof.
  intros B. simpl. destruct (rstrip_by p r) eqn:E; [|reflexivity].
  exfalso. apply B. now apply rstrip_empty_iff.
Qed.

Lemma strip_commute (p : ascii -> bool) (s : string) :
  rstrip_by p (lstrip_by p s) = lstrip_by p (rstrip_by p s).
Proof.
  induction s as [|c r IH]; [reflexivity|].
  destruct (p c) eqn:E.
  - cbn [lstrip_by]. rewrite E.
    destruct (string_dec (lstrip_by p r) "") as [B|B].
    + rewrite (rstrip_cons_blank p c r E B), B. reflexivity.
    + rewrite (rstrip_cons_more p c r B). cbn [lstrip_by]. now rewrite E.
  - rewrite (rstrip_cons_keep p c r E). cbn [lstrip_by]. rewrite E.
    now apply rstrip_cons_keep.
Qed.

Lemma collapse_in_run (s : string) :
  collapse true s = collapse false (lstrip_by is_space s).
Proof.
  induction s as [|c r IH]; simpl; [reflexivity|].
  destruct (is_space c) eqn:E; [exact IH|]. simpl. now rewrite E.
Qed.

Lemma split_ws_blank (s : string) :
  split_ws s = [] <-> lstrip_by is_space s = "".
Proof.
  induction s as [|c r IH]; simpl; [tauto|].
  destruct (is_space c); [exact IH|].
  split; [|discriminate].
  destruct r as [|d r']; [discriminate|].
  destruct (is_space d); [discriminate|].
  destruct (split_ws (String d r')); discriminate.
Qed.

Lemma join_cons (w : string) (ws : list string) :
  ws <> [] -> join (w :: ws) = (w ++ " " ++ join ws)%string.
Proof. destruct ws; [congruence|reflexivity]. Qed.

(** Line 34 gives the words of the input joined by single spaces. *)
Lemma normalize_join_words (raw : string) :
  normalize raw = join (split_ws raw).
Proof.
  unfold normalize, re_sub_ws, strip, strip_by.
  induction raw as [|c r IH]; [reflexivity|].
  destruct (is_space c) eqn:E.
  - cbn [lstrip_by split_ws]. rewrite E. exact IH.
  - cbn [lstrip_by]. rewrite E, (rstrip_cons_keep _ c r E).
    cbn [collapse]. rewrite E.
    destruct r as [|d r']; [simpl; now rewrite E|].
    change (split_ws (String c (String d r')))
      with (if is_space c then split_ws (String d r')
            else if is_space d
                 then String c EmptyString :: split_ws (String d r')
                 else match split_ws (String d r') with
                      | w :: ws => String c w :: ws
                      | [] => [String c EmptyString]
                      end).
    rewrite E. destruct (is_space d) eqn:D.
    + cbn [lstrip_by] in IH. rewrite D in IH.
      destruct (string_dec (lstrip_by is_space r') "") as [B|B].
      * rewrite (rstrip_cons_blank _ d r' D B).
        assert (W : split_ws (String d r') = []).
        { apply split_ws_blank. cbn [lstrip_by]. now rewrite D. }
        rewrite W. reflexivity.
      * rewrite (rstrip_cons_more _ d r' B). cbn [collapse]. rewrite D.
        rewrite collapse_in_run, <- strip_commute, IH.
        rewrite join_cons; [reflexivity|].
        intros W. apply split_ws_blank in W. cbn [lstrip_by] in W.
        rewrite D in W. contradiction.
    + cbn [lstrip_by] in IH. rewrite D in IH. rewrite IH.
      destruct (split_ws (String d r')) as [|w ws] eqn:W.
      * apply split_ws_blank in W. cbn [lstrip_by] in W. rewrite D in W.
        discriminate.
      * unfold join. simpl. destruct ws; reflexivity.
Qed.

Lemma split_ws_no_space (s : string) :
  Forall (fun w => no_space w = true) (split_ws s).
Proof.
  induction s as [|c r IH]; simpl; [constructor|].
  destruct (is_space c) eqn:E; [exact IH|].
  destruct r as [|d r']; [repeat constructor; simpl; now rewrite E|].
  destruct (is_space d).
  - constructor; [simpl; now rewrite E|exact IH].
  - destruct (split_ws (String d r')) as [|w ws].
    + repeat constructor. simpl. now rewrite E.
    + inversion IH; subst. constructor; [|assumption].
      simpl. rewrite E. assumption.
Qed.

(** Splitting the joined words gives the words back. *)
Lemma split_ws_join (ws : list string) :
  Forall (fun w => w <> "") ws ->
  Forall (fun w => no_space w = true) ws ->
  split_ws (join ws) = ws.
Proof.
  induction ws as [|w ws IH]; intros N S; [reflexivity|].
  inversion N as [|? ? Nw N']; subst. inversion S as [|? ? Sw S']; subst.
  specialize (IH N' S').
  assert (T : forall tail : string,
             (tail = "" /\ ws = []
              \/ (exists u, tail = String " " u /\ split_ws u = ws
                            /\ ws <> [])) ->
             split_ws (w ++ tail) = w :: ws).
  { clear IH N S N' S'. induction w as [|c w IHw]; [congruence|].
    intros tail Ht. simpl in Sw. apply andb_prop in Sw as [Sc Sw].
    apply negb_true_iff in Sc.
    destruct w as [|d w'].
    - simpl. rewrite Sc.
      destruct Ht as [[-> ->]|(u & -> & Hu & _)]; [reflexivity|].
      change (is_space " ") with true. cbv iota.
      change (split_ws (String " " u)) with (split_ws u). now rewrite Hu.
    - assert (Sd : is_space d = false).
      { simpl in Sw. apply andb_prop in Sw as [Sd _].
        now apply negb_true_iff in Sd. }
      specialize (IHw ltac:(discriminate) Sw tail Ht).
      change (split_ws (String c (String d w') ++ tail))
        with (if is_space c then split_ws (String d w' ++ tail)
              else if is_space d
                   then String c EmptyString :: split_ws (String d w' ++ tail)
                   else match split_ws (String d w' ++ tail) with
                        | x :: xs => String c x :: xs
                        | [] => [String c EmptyString]
                        end).
      now rewrite Sc, Sd, IHw. }
  destruct ws as [|w' ws'].
  - unfold join. simpl.
    assert (E : (w ++ "")%string = w)
      by (clear; induction w; simpl; congruence).
    rewrite <- E at 1. apply T. now left.
  - rewrite join_cons by discriminate. apply T. right.
    exists (join (w' :: ws')). repeat split; [|discriminate].
    exact IH.
Qed.

Lemma split_ws_normalize (raw : string) :
  split_ws (normalize raw) = split_ws raw.
Proof.
  rewrite normalize_join_words.
  apply split_ws_join; [apply split_ws_nonempty|apply split_ws_no_space].
Qed.

Lemma normalize_idempotent (raw : string) :
  normalize (normalize raw) = normalize raw.
Proof.
  rewrite (normalize_join_words (normalize raw)), split_ws_normalize.
  symmetry. apply normalize_join_words.
Qed.

(** X1: only the words of a location count.  The normalised string is the
    words of the input joined by single spaces, and two inputs with the
    same words, whatever whitespace surrounds or separates them, parse to
    the same pair. *)
Theorem X1_same_words_same_parse (a b : string) :
  split_ws a = split_ws b ->
  normalize a = join (split_ws a)
  /\ parse_location (Some a) = parse_location (Some b).
Proof.
  intros H. split; [apply normalize_join_words|].
  unfold parse_location. now rewrite !normalize_join_words, H.
Qed.

Lemma X1_witness :
  split_ws "  Shell   Dagoretti " = split_ws "Shell Dagoretti"
  /\ normalize "  Shell   Dagoretti "
     = join (split_ws "  Shell   Dagoretti ")
  /\ parse_location (Some "  Shell   Dagoretti ")
     = parse_location (Some "Shell Dagoretti").
Proof.
  split; [vm_compute; reflexivity|].
  apply (X1_same_words_same_parse "  Shell   Dagoretti " "Shell Dagoretti").
  vm_compute. reflexivity.
Defined.

(** X2: normalising is idempotent, so parsing a string that line 34 has
    already cleaned gives the same pair as parsing the raw string. *)
Theorem X2_parse_of_normalized (raw : string) :
  normalize (normalize raw) = normalize raw
  /\ parse_location (Some (normalize raw)) = parse_location (Some raw).
Proof.
  split; [apply normalize_idempotent|].
  unfold parse_location. now rewrite normalize_idempotent.
Qed.

(** *** What stripping leaves *)

Lemma lstrip_decompose (p : ascii -> bool) (s : string) :
  exists pre : string,
    s = (pre ++ lstrip_by p s)%string
    /\ all_chars p pre = true
    /\ match first_char (lstrip_by p s) with
       | Some a => p a = false
       | None => True
       end.
Proof.
  induction s as [|c r (pre & E & A & F)]; [now exists ""|].
  simpl. destruct (p c) eqn:Pc.
  - exists (String c pre). simpl. rewrite Pc, A. now rewrite <- E.
  - exists "". simpl. auto.
Qed.

Lemma rstrip_decompose (p : ascii -> bool) (s : string) :
  exists post : string,
    s = (rstrip_by p s ++ post)%string
    /\ all_chars p post = true
    /\ match last_char (rstrip_by p s) with
       | Some b => p b = false
       | None => True
       end.
Proof.
  induction s as [|c r (post & E & A & L)]; [now exists ""|].
  simpl. destruct (rstrip_by p r) as [|d t] eqn:R; simpl.
  - simpl in E. subst r. destruct (p c) eqn:Pc.
    + exists (String c post). simpl. now rewrite Pc, A.
    + exists post. simpl. auto.
  - exists post. simpl in E. rewrite E at 1. simpl. repeat split; auto.
Qed.

Lemma rstrip_first_char (p : ascii -> bool) (s : string) :
  rstrip_by p s <> "" -> first_char (rstrip_by p s) = first_char s.
Proof.
  destruct s as [|c r]; [reflexivity|]. simpl.
  destruct (is_empty (rstrip_by p r) && p c); [congruence|reflexivity].
Qed.

(** [strip] removes a run of [p]-characters from each end and leaves a
    string with clean ends. *)
Lemma strip_by_decompose (p : ascii -> bool) (s : string) :
  exists pre post : string,
    s = (pre ++ strip_by p s ++ post)%string
    /\ all_chars p pre = true
    /\ all_chars p post = true
    /\ clean_ends p (strip_by p s) = true.
Proof.
  unfold strip_by.
  destruct (lstrip_decompose p s) as (pre & E1 & A1 & F).
  destruct (rstrip_decompose p (lstrip_by p s)) as (post & E2 & A2 & L).
  exists pre, post. repeat split; try assumption.
  - rewrite <- E2. exact E1.
  - unfold clean_ends.
    destruct (rstrip_by p (lstrip_by p s)) as [|c t] eqn:R; [reflexivity|].
    assert (N : rstrip_by p (lstrip_by p s) <> "") by (rewrite R; discriminate).
    apply rstrip_first_char in N. rewrite R in N.
    rewrite <- N in F. simpl in F. simpl first_char.
    destruct (last_char (String c t)); [|reflexivity].
    now rewrite F, L.
Qed.

(** X4: the Shell and Total rules test a prefix, not a word.  Whenever the
    normalised location starts with shell (or total) in any case, the
    merchant is "Shell" (or "Total"), and the area is what follows the
    first five characters with the separators space, comma, hyphen and
    underscore removed from both ends, or "Unknown" when nothing is left;
    the area never starts or ends with a separator. *)
Theorem X4_shell_total_prefix_rule (raw : string) :
  let s := normalize raw in
  let l := lower s in
  startswith l "shell" = true \/ startswith l "total" = true ->
  exists pre core post : string,
    drop 5 s = (pre ++ core ++ post)%string
    /\ all_chars is_sep pre = true
    /\ all_chars is_sep post = true
    /\ clean_ends is_sep core = true
    /\ parse_location (Some raw)
       = (if startswith l "shell" then "Shell" else "Total",
          or_else core "Unknown")
    /\ clean_ends is_sep (snd (parse_location (Some raw))) = true.
Proof.
  intros s l H.
  destruct (strip_by_decompose is_sep (drop 5 s)) as (pre & post & E & A1 & A2 & C).
  exists pre, (strip_by is_sep (drop 5 s)), post.
  assert (P : parse_location (Some raw)
              = (if startswith l "shell" then "Shell" else "Total",
                 or_else (strip_by is_sep (drop 5 s)) "Unknown")).
  { unfold parse_location, parse_normalized. fold s. fold l.
    destruct (startswith l "shell") eqn:S1; [reflexivity|].
    destruct H as [H|H]; [discriminate|]. now rewrite H. }
  repeat split; try assumption.
  rewrite P. cbn [snd]. unfold or_else.
  destruct (strip_by is_sep (drop 5 s)); [reflexivity|exact C].
Qed.

Lemma X4_witness :
  (startswith (lower (normalize "Shelly Beach, ")) "shell" = true
   \/ startswith (lower (normalize "Shelly Beach, ")) "total" = true)
  /\ exists pre core post : string,
      drop 5 (normalize "Shelly Beach, ") = (pre ++ core ++ post)%string
      /\ all_chars is_sep pre = true
      /\ all_chars is_sep post = true
      /\ clean_ends is_sep core = true
      /\ parse_location (Some "Shelly Beach, ")
         = (if startswith (lower (normalize "Shelly Beach, ")) "shell"
            then "Shell" else "Total",
            or_else core "Unknown")
      /\ clean_ends is_sep (snd (parse_location (Some "Shelly Beach, ")))
         = true.
Proof.
  split; [left; vm_compute; reflexivity|].
  apply (X4_shell_total_prefix_rule "Shelly Beach, ").
  left. vm_compute. reflexivity.
Defined.

Example shelly_beach :
  parse_location (Some "Shelly Beach, ") = ("Shell", "y Beach").
Proof. vm_compute. reflexivity. Qed.

(** *** Rules that fire on a prefix *)

Lemma startswith_app (p s : string) :
  startswith s p = true -> exists r : string, s = (p ++ r)%string.
Proof.
  revert s. induction p as [|a p IH]; intros s H; [now exists s|].
  apply startswith_cons in H as (r & -> & H).
  destruct (IH r H) as (r' & ->). now exists r'.
Qed.

(** Rewrites the lower-cased string of the goal as the prefix named by
    [H] followed by a remainder, and decides the prefix tests. *)
Ltac decide_rules H :=
  let r := fresh "r" in
  let E := fresh "E" in
  destruct (startswith_app _ _ H) as (r & E);
  unfold parse_location, parse_normalized;
  rewrite E; unfold startswith; simpl prefix;
  try replace (prefix "" r) with true by (destruct r; reflexivity);
  cbn [orb]; rewrite ?orb_true_r.

(** X3: a location with at least one word never parses to an empty
    merchant or an empty area. *)
Theorem X3_components_nonempty (raw : string) :
  split_ws raw <> [] ->
  fst (parse_location (Some raw)) <> ""
  /\ snd (parse_location (Some raw)) <> "".
Proof.
  intros H. apply parse_location_nonempty.
  rewrite normalize_join_words.
  apply join_nonempty; [exact H|apply split_ws_nonempty].
Qed.

Lemma X3_witness :
  split_ws " Mama Njeri " <> []
  /\ fst (parse_location (Some " Mama Njeri ")) <> ""
  /\ snd (parse_location (Some " Mama Njeri ")) <> "".
Proof.
  split; [vm_compute; discriminate|].
  apply (X3_components_nonempty " Mama Njeri "). vm_compute. discriminate.
Defined.

Lemma drop_all (n : nat) (s : string) :
  (String.length s <= n)%nat -> drop n s = "".
Proof.
  revert s. induction n as [|n IH]; intros [|c r] H; simpl in *;
    try reflexivity; [lia|apply IH; lia].
Qed.

(** X6: the Love Dale rule fires on the prefix "love dale" but cuts the
    area after the 18 characters of "Love Dale Butchery".  For a location
    without underscore the area is what follows the 18th character, so a
    location of at most 18 characters, such as "Love Dale Kikuyu", gets
    the area "Unknown". *)
Theorem X6_love_dale_area_cut (raw : string) :
  let s := normalize raw in
  startswith (lower s) "love dale" = true ->
  mem "_" s = false ->
  parse_location (Some raw)
  = ("Love Dale Butchery", or_else (strip_chars seps (drop 18 s)) "Unknown")
  /\ ((String.length s <= 18)%nat ->
      parse_location (Some raw) = ("Love Dale Butchery", "Unknown")).
Proof.
  intros s H U. subst s.
  assert (P : parse_location (Some raw)
              = ("Love Dale Butchery",
                 or_else (strip_chars seps (drop 18 (normalize raw)))
                   "Unknown")).
  { decide_rules H. now rewrite (split_once_none _ U). }
  split; [exact P|].
  intros L. rewrite P, (drop_all 18 _ L). reflexivity.
Qed.

Lemma X6_witness :
  (startswith (lower (normalize "Love Dale Kikuyu")) "love dale" = true
   /\ mem "_" (normalize "Love Dale Kikuyu") = false
   /\ (String.length (normalize "Love Dale Kikuyu") <= 18)%nat)
  /\ parse_location (Some "Love Dale Kikuyu")
     = ("Love Dale Butchery", "Unknown").
Proof.
  split; [repeat split; first [vm_compute; reflexivity|vm_compute; lia]|].
  apply (X6_love_dale_area_cut "Love Dale Kikuyu");
    first [vm_compute; reflexivity|vm_compute; lia].
Defined.

Example love_dale_long :
  parse_location (Some "Love Dale Kikuyu Road Branch")
  = ("Love Dale Butchery", "oad Branch").
Proof. vm_compute. reflexivity. Qed.

(** X8: four rules have a fixed outcome and ignore whatever follows the
    prefix: junction mall, karura forest, kisii and naivasha road. *)
Theorem X8_fixed_outcome_rules (raw : string) :
  let l := lower (normalize raw) in
  (startswith l "junction mall" = true ->
   parse_location (Some raw) = ("Junction Mall", "Junction Mall"))
  /\ (startswith l "karura forest" = true ->
      parse_location (Some raw) = ("Karura Forest", "Karura"))
  /\ (startswith l "kisii" = true ->
      parse_location (Some raw) = ("Kisii Contribution", "Kisii"))
  /\ (startswith l "naivasha road" = true ->
      parse_location (Some raw) = ("Naivasha Road", "Naivasha Road")).
Proof.
  intros l. subst l.
  repeat split; intros H; decide_rules H; reflexivity.
Qed.

Lemma X8_witness :
  startswith (lower (normalize "Kisii funeral - Nyanchwa")) "kisii" = true
  /\ parse_location (Some "Kisii funeral - Nyanchwa")
     = ("Kisii Contribution", "Kisii").
Proof.
  split; [vm_compute; reflexivity|].
  apply (X8_fixed_outcome_rules "Kisii funeral - Nyanchwa").
  vm_compute. reflexivity.
Defined.

(** *** The underscore fallback *)

Lemma split_once_underscore (s : string) :
  mem "_" s = true ->
  exists m a : string,
    split_once is_underscore s = Some (m, a)
    /\ s = (m ++ String "_" a)%string
    /\ mem "_" m = false.
Proof.
  induction s as [|c r IH]; cbn [mem split_once]; [discriminate|].
  replace (is_underscore c) with (Ascii.eqb "_" c) by apply Ascii.eqb_sym.
  destruct (Ascii.eqb "_" c) eqn:E; cbn [orb].
  - intros _. apply Ascii.eqb_eq in E. subst c. now exists "", r.
  - intros H. destruct (IH H) as (m & a & -> & -> & N).
    exists (String c m), a. repeat split. cbn [mem]. now rewrite E.
Qed.

(** X9: when no brand rule fires and the normalised location has an
    underscore, it is cut at its first underscore: the merchant is the
    trimmed text before it and the area the trimmed text after it, each
    replaced by "Unknown" when empty.  The text before the cut holds no
    underscore; further underscores stay in the area. *)
Theorem X9_underscore_fallback (raw : string) :
  let s := normalize raw in
  brand_rule_matches s = false ->
  mem "_" s = true ->
  exists m a : string,
    s = (m ++ String "_" a)%string
    /\ mem "_" m = false
    /\ parse_location (Some raw)
       = (or_else (strip m) "Unknown", or_else (strip a) "Unknown").
Proof.
  intros s B U.
  destruct (split_once_underscore s U) as (m & a & E & D & N).
  exists m, a. repeat split; try assumption.
  unfold parse_location. fold s.
  rewrite (no_brand_rule_fallback s B). unfold generic_fallback.
  now rewrite E.
Qed.

Lemma X9_witness :
  (brand_rule_matches (normalize "Quickmart _ Kilimani_Yaya") = false
   /\ mem "_" (normalize "Quickmart _ Kilimani_Yaya") = true)
  /\ parse_location (Some "Quickmart _ Kilimani_Yaya")
     = ("Quickmart", "Kilimani_Yaya").
Proof.
  split; [split; vm_compute; reflexivity|].
  destruct (X9_underscore_fallback "Quickmart _ Kilimani_Yaya")
    as (m & a & E & _ & P); [vm_compute; reflexivity ..|].
  vm_compute. reflexivity.
Defined.

(** *** Brand rules and letter case *)

Lemma brand_rule_tests (s : string) :
  brand_rule_matches s
  = existsb (startswith (lower s)) brand_prefixes.
Proof. reflexivity. Qed.

(** X10: when a brand rule fires the merchant is one of the fifteen fixed
    labels of the rules, whatever the casing of the input. *)
Theorem X10_brand_merchant_label (raw : string) :
  brand_rule_matches (normalize raw) = true ->
  In (fst (parse_location (Some raw))) brand_merchants.
Proof.
  unfold parse_location, parse_normalized, brand_rule_matches,
    brand_prefixes, brand_merchants.
  cbn [existsb].
  repeat match goal with
         | |- context [startswith ?l ?p] =>
             destruct (startswith l p); cbn [orb fst];
             [intros _; cbn [In]; tauto|]
         end.
  discriminate.
Qed.

Lemma X10_witness :
  brand_rule_matches (normalize "ROCKWELL  waiyaki way") = true
  /\ In (fst (parse_location (Some "ROCKWELL  waiyaki way")))
       brand_merchants.
Proof.
  split; [vm_compute; reflexivity|].
  apply (X10_brand_merchant_label "ROCKWELL  waiyaki way").
  vm_compute. reflexivity.
Defined.

Lemma is_space_lower_char (c : ascii) :
  is_space (lower_char c) = is_space c.
Proof. destruct c as [[] [] [] [] [] [] [] []]; vm_compute; reflexivity. Qed.

Lemma lower_lstrip (s : string) :
  lower (lstrip_by is_space s) = lstrip_by is_space (lower s).
Proof.
  induction s as [|c r IH]; simpl; [reflexivity|].
  rewrite is_space_lower_char. now destruct (is_space c).
Qed.

Lemma lower_rstrip (s : string) :
  lower (rstrip_by is_space s) = rstrip_by is_space (lower s).
Proof.
  induction s as [|c r IH]; simpl; [reflexivity|].
  rewrite is_space_lower_char, <- IH.
  destruct (rstrip_by is_space r); simpl; [|reflexivity].
  now destruct (is_space c).
Qed.

Lemma lower_collapse (b : bool) (s : string) :
  lower (collapse b s) = collapse b (lower s).
Proof.
  revert b. induction s as [|c r IH]; intros b; simpl; [reflexivity|].
  rewrite is_space_lower_char.
  destruct (is_space c); [destruct b|]; simpl; now rewrite IH.
Qed.

Lemma lower_normalize (raw : string) :
  lower (normalize raw) = normalize (lower raw).
Proof.
  unfold normalize, re_sub_ws, strip, strip_by.
  now rewrite lower_collapse, lower_rstrip, lower_lstrip.
Qed.

(** X11: the brand rules are blind to letter case.  Two locations that
    differ only in case fire the same rules, and when a brand rule fires
    they get the same merchant. *)
Theorem X11_brand_rules_ignore_case (a b : string) :
  lower a = lower b ->
  brand_rule_matches (normalize a) = brand_rule_matches (normalize b)
  /\ (brand_rule_matches (normalize a) = true ->
      fst (parse_location (Some a)) = fst (parse_location (Some b))).
Proof.
  intros H.
  assert (L : lower (normalize a) = lower (normalize b))
    by now rewrite !lower_normalize, H.
  split; [unfold brand_rule_matches; now rewrite L|].
  unfold parse_location, parse_normalized, brand_rule_matches,
    brand_prefixes.
  rewrite <- L. cbn [existsb].
  repeat match goal with
         | |- context [startswith ?l ?p] =>
             destruct (startswith l p); cbn [orb fst];
             [intros _; reflexivity|]
         end.
  discriminate.
Qed.

Lemma X11_witness :
  lower "SHELL Dagoretti" = lower "shell DAGORETTI"
  /\ fst (parse_location (Some "SHELL Dagoretti"))
     = fst (parse_location (Some "shell DAGORETTI")).
Proof.
  split; [vm_compute; reflexivity|].
  apply (X11_brand_rules_ignore_case "SHELL Dagoretti" "shell DAGORETTI");
    vm_compute; reflexivity.
Defined.

(** *** Which rows are Shell rows *)

Lemma normalize_first_char (raw : string) :
  match first_char (normalize raw) with
  | Some c => is_space c = false
  | None => True
  end.
Proof.
  rewrite normalize_join_words.
  pose proof (split_ws_nonempty raw) as N.
  pose proof (split_ws_no_space raw) as S.
  destruct (split_ws raw) as [|w ws]; [exact I|].
  inversion N as [|? ? Nw _]; subst. inversion S as [|? ? Sw _]; subst.
  destruct w as [|c w]; [congruence|].
  simpl in Sw. apply andb_prop in Sw as [Sc _].
  apply negb_true_iff in Sc.
  unfold join. simpl. destruct ws; exact Sc.
Qed.

Lemma split_once_app (p : ascii -> bool) (s m a : string) :
  split_once p s = Some (m, a) ->
  exists c : ascii, s = (m ++ String c a)%string.
Proof.
  revert m a. induction s as [|c r IH]; intros m a; simpl; [discriminate|].
  destruct (p c).
  - intros E. injection E as <- <-. now exists c.
  - destruct (split_once p r) as [[m' a']|]; [|discriminate].
    intros E. injection E as <- <-.
    destruct (IH m' a' eq_refl) as (d & ->). now exists d.
Qed.

Lemma string_app_assoc (a b c : string) :
  ((a ++ b) ++ c)%string = (a ++ b ++ c)%string.
Proof. induction a as [|x a IH]; simpl; congruence. Qed.

Lemma lower_app (a b : string) :
  lower (a ++ b) = (lower a ++ lower b)%string.
Proof. induction a as [|c a IH]; simpl; congruence. Qed.

Lemma startswith_prefix_app (p r : string) : startswith (p ++ r) p = true.
Proof.
  unfold startswith. induction p as [|c p IH]; simpl.
  - now destruct r.
  - destruct (ascii_dec c c); [exact IH|congruence].
Qed.

Lemma mem_app (c : ascii) (a b : string) :
  mem c (a ++ b) = mem c a || mem c b.
Proof.
  induction a as [|d a IH]; simpl; [reflexivity|].
  now rewrite IH, orb_assoc.
Qed.

Lemma generic_fallback_not_shell (s : string) :
  match first_char s with
  | Some c => is_space c = false
  | None => True
  end ->
  startswith (lower s) "shell" = false ->
  fst (generic_fallback s) <> "Shell".
Proof.
  intros F T. unfold generic_fallback.
  destruct (split_once is_underscore s) as [[m a]|] eqn:E; cbn [fst].
  - intros M. destruct (split_once_app _ _ _ _ E) as (c & Es).
    assert (St : strip m = "Shell").
    { unfold or_else in M. destruct (strip m); [discriminate M|exact M]. }
    unfold strip, strip_by in St.
    assert (Lm : lstrip_by is_space m = m).
    { destruct m as [|d m']; [reflexivity|].
      rewrite Es in F. simpl in F. simpl. now rewrite F. }
    rewrite Lm in St.
    destruct (rstrip_decompose is_space m) as (post & Em & _ & _).
    rewrite St in Em. rewrite Em in Es. rewrite Es in T.
    rewrite string_app_assoc, lower_app in T.
    change (lower "Shell") with "shell" in T.
    now rewrite startswith_prefix_app in T.
  - destruct (List.length (split_ws s) <=? 2)%nat eqn:L; cbn [fst].
    + intros ->. vm_compute in T. discriminate T.
    + intros M. apply Nat.leb_gt in L.
      destruct (split_ws s) as [|w1 [|w2 ws]]; simpl in L; try lia.
      change (firstn 2 (w1 :: w2 :: ws)) with [w1; w2] in M.
      rewrite join_cons in M by discriminate.
      apply (f_equal (mem " ")) in M.
      rewrite mem_app in M. simpl in M. rewrite orb_true_r in M.
      vm_compute in M. discriminate M.
Qed.

Lemma merchant_shell_iff (raw : string) :
  fst (parse_location (Some raw)) = "Shell"
  <-> startswith (lower (normalize raw)) "shell" = true.
Proof.
  split.
  - intros M. destruct (startswith (lower (normalize raw)) "shell") eqn:T;
      [reflexivity|].
    exfalso. revert M. unfold parse_location, parse_normalized. rewrite T.
    repeat match goal with
           | |- context [startswith ?l ?p] =>
               destruct (startswith l p); cbn [orb fst];
               [discriminate|]
           end.
    apply generic_fallback_not_shell; [apply normalize_first_char|exact T].
  - intros T. unfold parse_location, parse_normalized. now rewrite T.
Qed.

(** X5: a location gets the merchant "Shell" exactly when its normalised
    form starts with shell in any case: no other rule and no fallback
    yields that label. *)
Theorem X5_shell_merchant (raw : string) :
  fst (parse_location (Some raw)) = "Shell"
  <-> startswith (lower (normalize raw)) "shell" = true.
Proof. apply merchant_shell_iff. Qed.

(** *** Labels are in normal form *)

Lemma single_spaced_app (a b : string) :
  single_spaced (a ++ b) = true ->
  single_spaced a = true /\ single_spaced b = true.
Proof.
  induction a as [|c a IH]; [now split|].
  cbn [append single_spaced]. intros H.
  apply andb_prop in H as [H1 H2]. destruct (IH H2) as [Ia Ib].
  split; [|exact Ib]. rewrite Ia, andb_true_r.
  destruct (is_space c); [|reflexivity].
  apply andb_prop in H1 as [-> H1]. now destruct a.
Qed.

Lemma single_spaced_collapse (b : bool) (x : string) :
  single_spaced (collapse b x) = true
  /\ (b = true -> match first_char (collapse b x) with
                  | Some d => is_space d = false
                  | None => True
                  end).
Proof.
  revert b. induction x as [|c r IH]; intros b; [now split|].
  cbn [collapse]. destruct (is_space c) eqn:E.
  - destruct (IH true) as [I1 I2]. specialize (I2 eq_refl).
    destruct b.
    + now split.
    + split; [|discriminate]. cbn [single_spaced]. rewrite I1.
      change (is_space " ") with true. cbn.
      destruct (collapse true r); [reflexivity|].
      cbn in I2. now rewrite I2.
  - destruct (IH false) as [I1 _]. cbn [single_spaced first_char].
    rewrite E, I1. now split.
Qed.

Lemma single_spaced_normalize (raw : string) :
  single_spaced (normalize raw) = true.
Proof. apply single_spaced_collapse. Qed.

Lemma single_spaced_first (x : string) (a : ascii) :
  single_spaced x = true -> first_char x = Some a ->
  is_space a = true -> a = " "%char.
Proof.
  destruct x as [|c r]; [discriminate|]. cbn [single_spaced first_char].
  intros H E S. injection E as ->. rewrite S in H.
  apply andb_prop in H as [H _]. apply andb_prop in H as [H _].
  now apply Ascii.eqb_eq in H.
Qed.

Lemma single_spaced_last (x : string) (a : ascii) :
  single_spaced x = true -> last_char x = Some a ->
  is_space a = true -> a = " "%char.
Proof.
  induction x as [|c r IH]; [discriminate|].
  cbn [single_spaced]. intros H E S.
  apply andb_prop in H as [H1 H2].
  destruct r as [|d r'].
  - injection E as ->. rewrite S in H1.
    apply andb_prop in H1 as [H1 _]. now apply Ascii.eqb_eq in H1.
  - apply IH; assumption.
Qed.

Lemma clean_of_sep (x : string) :
  single_spaced x = true -> clean_ends is_sep x = true ->
  clean_ends is_space x = true.
Proof.
  unfold clean_ends. intros T.
  destruct (first_char x) as [a|] eqn:Fa; [|reflexivity].
  destruct (last_char x) as [b|] eqn:Lb; [|reflexivity].
  intros H. apply andb_prop in H as [Ha Hb].
  destruct (is_space a) eqn:Sa.
  { rewrite (single_spaced_first x a T Fa Sa) in Ha. discriminate. }
  destruct (is_space b) eqn:Sb; [|reflexivity].
  rewrite (single_spaced_last x b T Lb Sb) in Hb. discriminate.
Qed.

Lemma rstrip_clean (p : ascii -> bool) (x : string) :
  match last_char x with Some b => p b = false | None => True end ->
  rstrip_by p x = x.
Proof.
  induction x as [|c r IH]; [reflexivity|].
  cbn [rstrip_by]. destruct r as [|d r'].
  - cbn. now intros ->.
  - intros H. change (last_char (String c (String d r')))
      with (last_char (String d r')) in H.
    rewrite (IH H). reflexivity.
Qed.

Lemma strip_clean (p : ascii -> bool) (x : string) :
  clean_ends p x = true -> strip_by p x = x.
Proof.
  unfold clean_ends, strip_by. destruct x as [|c r]; [reflexivity|].
  cbn [first_char]. destruct (last_char (String c r)) as [b|] eqn:L.
  - intros H. apply andb_prop in H as [Hc Hb].
    apply negb_true_iff in Hc, Hb. cbn [lstrip_by]. rewrite Hc.
    apply rstrip_clean. now rewrite L.
  - exfalso. revert L. clear. revert c.
    induction r as [|d r IH]; intros c; [discriminate|].
    change (last_char (String c (String d r)))
      with (last_char (String d r)). apply IH.
Qed.

Lemma collapse_single_spaced (x : string) :
  single_spaced x = true ->
  match last_char x with Some b => is_space b = false | None => True end ->
  collapse false x = x.
Proof.
  induction x as [|c r IH]; [reflexivity|].
  cbn [single_spaced collapse]. intros H L.
  apply andb_prop in H as [H1 H2].
  destruct r as [|d r'].
  - cbn in L. rewrite L. reflexivity.
  - change (last_char (String c (String d r')))
      with (last_char (String d r')) in L.
    specialize (IH H2 L).
    destruct (is_space c) eqn:E.
    + apply andb_prop in H1 as [Hc Hd]. apply Ascii.eqb_eq in Hc.
      apply negb_true_iff in Hd. subst c.
      cbn [collapse] in *. rewrite Hd in *. now rewrite IH.
    + now rewrite IH.
Qed.

Lemma normal_form (x : string) :
  single_spaced x = true -> clean_ends is_space x = true ->
  normalize x = x.
Proof.
  intros T C. unfold normalize, re_sub_ws, strip.
  rewrite (strip_clean _ _ C). apply collapse_single_spaced; [exact T|].
  unfold clean_ends in C.
  destruct (first_char x) eqn:F; [|now destruct x].
  destruct (last_char x); [|exact I].
  apply andb_prop in C as [_ C]. now apply negb_true_iff in C.
Qed.

Lemma normal_strip_by (p : ascii -> bool) (y : string) :
  single_spaced y = true ->
  single_spaced (strip_by p y) = true /\ clean_ends p (strip_by p y) = true.
Proof.
  intros T. destruct (strip_by_decompose p y) as (pre & post & E & _ & _ & C).
  split; [|exact C]. rewrite E in T.
  apply single_spaced_app in T as [_ T].
  now apply single_spaced_app in T as [T _].
Qed.

Lemma normal_strip (y : string) :
  single_spaced y = true -> normalize (strip y) = strip y.
Proof.
  intros T. destruct (normal_strip_by is_space y T) as [A B].
  now apply normal_form.
Qed.

Lemma normal_strip_chars (y : string) :
  single_spaced y = true ->
  normalize (strip_chars seps y) = strip_chars seps y.
Proof.
  intros T. destruct (normal_strip_by is_sep y T) as [A B].
  apply normal_form; [exact A|]. now apply clean_of_sep.
Qed.

Lemma normal_or_else (x : string) :
  normalize x = x -> normalize (or_else x "Unknown") = or_else x "Unknown".
Proof. unfold or_else. now destruct (is_empty x). Qed.

Lemma single_spaced_drop (n : nat) (s : string) :
  single_spaced s = true -> single_spaced (drop n s) = true.
Proof.
  revert s. induction n as [|n IH]; intros [|c r]; cbn [drop]; auto.
  cbn [single_spaced]. intros H. apply andb_prop in H as [_ H]. now apply IH.
Qed.

Lemma single_spaced_split (p : ascii -> bool) (s m a : string) :
  single_spaced s = true -> split_once p s = Some (m, a) ->
  single_spaced m = true /\ single_spaced a = true.
Proof.
  intros T E. destruct (split_once_app p s m a E) as (c & ->).
  apply single_spaced_app in T as [Tm Ta]. split; [exact Tm|].
  cbn [single_spaced] in Ta. now apply andb_prop in Ta as [_ Ta].
Qed.

Lemma single_spaced_lstrip (p : ascii -> bool) (s : string) :
  single_spaced s = true -> single_spaced (lstrip_by p s) = true.
Proof.
  intros T. destruct (lstrip_decompose p s) as (pre & E & _).
  rewrite E in T. now apply single_spaced_app in T as [_ T].
Qed.

Lemma single_spaced_match_ci (lit s rest : string) :
  single_spaced s = true -> match_ci lit s = Some rest ->
  single_spaced rest = true.
Proof.
  revert s. induction lit as [|l lit IH]; intros s T; cbn [match_ci].
  - intros E. now injection E as <-.
  - destruct s as [|c r]; [discriminate|].
    destruct (Ascii.eqb (lower_char c) l); [|discriminate].
    apply IH. cbn [single_spaced] in T. now apply andb_prop in T as [_ T].
Qed.

Lemma single_spaced_dot_star (s : string) :
  single_spaced s = true -> single_spaced (dot_star s) = true.
Proof.
  assert (D : exists post, s = (dot_star s ++ post)%string).
  { induction s as [|c r (post & IH)]; [now exists ""|].
    cbn [dot_star]. destruct (Ascii.eqb c "010").
    - now exists (String c r).
    - exists post. cbn [append]. now rewrite <- IH. }
  destruct D as (post & E). intros T. rewrite E in T.
  now apply single_spaced_app in T as [T _].
Qed.

Lemma single_spaced_dupont (s g : string) :
  single_spaced s = true -> re_match_dupont s = Some g ->
  single_spaced g = true.
Proof.
  intros T. unfold re_match_dupont.
  assert (A : forall lit,
             match match_ci lit s with
             | Some rest => lounge_tail rest
             | None => None
             end = Some g -> single_spaced g = true).
  { intros lit. destruct (match_ci lit s) as [rest|] eqn:M; [|discriminate].
    apply (single_spaced_match_ci _ _ _ T) in M.
    unfold lounge_tail. destruct rest as [|c r]; [discriminate|].
    destruct (is_space c); [|discriminate].
    destruct (match_ci "lounge" (lstrip_by is_space r)) as [t|] eqn:M2;
      [|discriminate].
    intros E. injection E as <-.
    apply single_spaced_dot_star, single_spaced_lstrip.
    refine (single_spaced_match_ci _ _ _ (single_spaced_lstrip _ _ _) M2).
    cbn [single_spaced] in M. now apply andb_prop in M as [_ M]. }
  destruct (match match_ci "dupoint" s with
            | Some rest => lounge_tail rest
            | None => None
            end) eqn:E1.
  - intros E. injection E as <-. now apply (A "dupoint").
  - apply A.
Qed.


Lemma normal_generic_fallback (s : string) :
  normalize s = s -> single_spaced s = true ->
  normal_pair (generic_fallback s).
Proof.
  intros Ns T. unfold generic_fallback, normal_pair.
  destruct (split_once is_underscore s) as [[m a]|] eqn:E.
  - destruct (single_spaced_split _ _ _ _ T E) as [Tm Ta]. cbn [fst snd].
    split; apply normal_or_else, normal_strip; assumption.
  - assert (W : forall n, normalize (join (firstn n (split_ws s)))
                          = join (firstn n (split_ws s))
                          /\ normalize (join (skipn n (split_ws s)))
                             = join (skipn n (split_ws s))).
    { intros n. rewrite !normalize_join_words.
      rewrite !split_ws_join; auto using Forall_firstn, Forall_skipn,
        split_ws_nonempty, split_ws_no_space. }
    destruct (List.length (split_ws s) <=? 2)%nat; cbn [fst snd].
    + split; [exact Ns|reflexivity].
    + split; [apply W|apply normal_or_else, W].
Qed.

Ltac normal_area T :=
  split; cbn [fst snd]; [reflexivity|];
  apply normal_or_else; unfold rest_after;
  try apply normal_strip_chars; try apply single_spaced_drop; try exact T.

Lemma normal_parse_normalized (s : string) :
  normalize s = s -> single_spaced s = true ->
  normal_pair (parse_normalized s).
Proof.
  intros Ns T. unfold parse_normalized. cbv zeta.
  destruct (startswith (lower s) "shell"); [normal_area T|].
  destruct (startswith (lower s) "total"); [normal_area T|].
  destruct (startswith (lower s) "home").
  { split; cbn [fst snd]; [reflexivity|]. apply normal_or_else.
    destruct (split_once is_underscore_or_hyphen s) as [[m a]|] eqn:E.
    - apply normal_strip. now destruct (single_spaced_split _ _ _ _ T E).
    - apply normal_strip_chars, single_spaced_drop, T. }
  destruct (startswith (lower s) "love dale butchery"
            || startswith (lower s) "love dale").
  { split; cbn [fst snd]; [reflexivity|]. apply normal_or_else.
    destruct (split_once is_underscore s) as [[m a]|] eqn:E.
    - apply normal_strip. now destruct (single_spaced_split _ _ _ _ T E).
    - apply normal_strip_chars, single_spaced_drop, T. }
  destruct (startswith (lower s) "dupoint" || startswith (lower s) "dupont").
  { split; cbn [fst snd]; [reflexivity|]. apply normal_or_else.
    destruct (re_match_dupont s) as [g|] eqn:E; [|reflexivity].
    apply normal_strip. exact (single_spaced_dupont s g T E). }
  destruct (startswith (lower s) "greenview"); [normal_area T|].
  destruct (startswith (lower s) "fish pit hub"); [normal_area T|].
  destruct (startswith (lower s) "junction pizza inn");
    [split; reflexivity|].
  destruct (startswith (lower s) "junction mall"); [split; reflexivity|].
  destruct (startswith (lower s) "leofresh"); [normal_area T|].
  destruct (startswith (lower s) "nairobi chapel"); [normal_area T|].
  destruct (startswith (lower s) "karura forest"); [split; reflexivity|].
  destruct (startswith (lower s) "rockwell"); [normal_area T|].
  destruct (startswith (lower s) "kisii"); [split; reflexivity|].
  destruct (startswith (lower s) "naivasha road"); [split; reflexivity|].
  now apply normal_generic_fallback.
Qed.

(** X24: every merchant and every area the parser returns is in the
    normal form of line 34: it has no whitespace at either end, its only
    whitespace characters are single spaces between words, and
    normalising it again changes nothing.  Other separators may remain:
    the area of "Home_ -Kikuyu Road" is "-Kikuyu Road". *)
Theorem X24_labels_in_normal_form (loc : option string) :
  normalize (fst (parse_location loc)) = fst (parse_location loc)
  /\ normalize (snd (parse_location loc)) = snd (parse_location loc).
Proof.
  destruct loc as [raw|]; [|split; reflexivity].
  apply normal_parse_normalized;
    [apply normalize_idempotent|apply single_spaced_normalize].
Qed.

Example home_area_keeps_hyphen :
  parse_location (Some "Home_ -Kikuyu Road") = ("Home", "-Kikuyu Road").
Proof. vm_compute. reflexivity. Qed.

End LocationExtras.

(** * Further properties of the aggregations *)

Module LedgerExtras.
Import Num Ledger Samples Report LedgerFacts.
Local Open Scope Q_scope.
Local Open Scope list_scope.

(** *** What a group holds *)

Lemma rows_with_app (col : Row -> option string) (k : string)
      (a b : DataFrame) :
  rows_with col k (a ++ b) = rows_with col k a ++ rows_with col k b.
Proof. apply filter_app. Qed.

Lemma sum_amounts_app (a b : DataFrame) :
  sum_amounts (a ++ b) == sum_amounts a + sum_amounts b.
Proof.
  induction a as [|r a IH]; simpl.
  - unfold sum_amounts at 2. simpl. ring.
  - rewrite !sum_amounts_cons, IH. ring.
Qed.

Lemma groupby_sum_snoc (col : Row -> option string) (df : DataFrame)
      (r : Row) :
  groupby_sum col (df ++ [r])
  = match col r with
    | Some k => add_group k (Amount r) (groupby_sum col df)
    | None => groupby_sum col df
    end.
Proof. unfold groupby_sum. now rewrite fold_left_app. Qed.

(** The entries of a Series after one more amount went to group [k']. *)
Lemma in_add_group (k' : string) (a : Q) (g : Series) (k : string) (v : Q) :
  keys_increasing g ->
  (In (k, v) (add_group k' a g) <->
   (k <> k' /\ In (k, v) g)
   \/ (k = k' /\ ((exists v0, In (k, v0) g /\ v = v0 + a)
                  \/ ((forall v0, ~ In (k, v0) g) /\ v = a)))).
Proof.
  unfold keys_increasing.
  induction 1 as [|[k0 s0] g Hg IH F]; simpl.
  - split.
    + intros [E|[]]. injection E as <- <-. right. split; [reflexivity|].
      right. split; [intros v0 []|reflexivity].
    + intros [[_ []]|[-> [(v0 & [] & _)|[_ ->]]]]. now left.
  - assert (Fk : forall x w, In (x, w) g -> slt k0 x).
    { intros x w Hin. rewrite Forall_forall in F. apply (F _ Hin). }
    destruct (String.compare k' k0) eqn:C.
    + apply String.compare_eq_iff in C. subst k0. simpl. split.
      * intros [E|Hin].
        -- injection E as <- <-. right. split; [reflexivity|].
           left. exists s0. split; [now left|reflexivity].
        -- left. split; [|now right].
           intros ->. apply (slt_irrefl k'). eapply Fk; eassumption.
      * intros [[N [E|Hin]]|[-> [(v0 & [E|Hin] & ->)|[N ->]]]].
        -- injection E as -> _. congruence.
        -- now right.
        -- injection E as ->. now left.
        -- exfalso. apply (slt_irrefl k'). eapply Fk; eassumption.
        -- exfalso. apply (N s0). now left.
    + assert (Nin : forall w, ~ In (k', w) ((k0, s0) :: g)).
      { intros w [E|Hin].
        - injection E as -> _. now apply (slt_irrefl k').
        - apply (slt_irrefl k'). eapply slt_trans; [exact C|].
          eapply Fk; eassumption. }
      simpl. split.
      * intros [E|Hin].
        -- injection E as <- <-. right. split; [reflexivity|].
           right. split; [exact Nin|reflexivity].
        -- left. split; [|exact Hin].
           intros ->. now apply (Nin v).
      * intros [[N Hin]|[-> [(v0 & Hin & ->)|[_ ->]]]].
        -- now right.
        -- now destruct (Nin v0).
        -- now left.
    + apply slt_gt in C. simpl. rewrite IH. split.
      * intros [E|[[N Hin]|[-> [(v0 & Hin & ->)|[N ->]]]]].
        -- injection E as <- <-. left. split; [|now left].
           intros ->. now apply (slt_irrefl k').
        -- left. split; [exact N|now right].
        -- right. split; [reflexivity|]. left. exists v0.
           split; [now right|reflexivity].
        -- right. split; [reflexivity|]. right. split; [|reflexivity].
           intros v0 [E|Hin]; [|now apply (N v0)].
           injection E as -> _. now apply (slt_irrefl k').
      * intros [[N [E|Hin]]|[-> [(v0 & [E|Hin] & ->)|[N ->]]]].
        -- now left.
        -- right. left. now split.
        -- injection E as -> _. now destruct (slt_irrefl k').
        -- right. right. split; [reflexivity|]. left. now exists v0.
        -- right. right. split; [reflexivity|]. right.
           split; [|reflexivity]. intros v0 Hin. apply (N v0). now right.
Qed.

Lemma rows_with_snoc (col : Row -> option string) (k : string)
      (df : DataFrame) (r : Row) :
  rows_with col k (df ++ [r])
  = rows_with col k df
    ++ (if match col r with
           | Some k' => String.eqb k k'
           | None => false
           end then [r] else []).
Proof. rewrite rows_with_app. reflexivity. Qed.

Lemma sum_amounts_snoc (df : DataFrame) (r : Row) :
  sum_amounts (df ++ [r]) == sum_amounts df + Amount r.
Proof.
  rewrite sum_amounts_app, (sum_amounts_cons r []).
  unfold sum_amounts at 2. simpl. ring.
Qed.

Lemma groupby_sum_groups (col : Row -> option string) (df : DataFrame) :
  groups_of_rows col df (groupby_sum col df).
Proof.
  induction df as [|r df IH] using rev_ind.
  - intros k. split; [intros v []|].
    split; [intros (v & [])|intros H; now destruct H].
  - intros k. rewrite groupby_sum_snoc, rows_with_snoc.
    destruct (IH k) as (Ia & Ib).
    destruct (col r) as [k'|].
    + pose proof (fun v => in_add_group k' (Amount r) _ k v
                              (groupby_sum_increasing col df)) as A.
      destruct (String.eqb_spec k k') as [->|Hne].
      * assert (D : (exists v0, In (k', v0) (groupby_sum col df))
                    \/ rows_with col k' df = []).
        { destruct (rows_with col k' df) eqn:R; [now right|].
          left. apply Ib. discriminate. }
        split.
        -- intros v Hin. apply A in Hin.
           destruct Hin as [[N _]|[_ [(v0 & Hin & ->)|[N ->]]]];
             [congruence| |].
           ++ rewrite sum_amounts_snoc, <- (Ia v0 Hin). reflexivity.
           ++ destruct D as [(v0 & Hin)|R]; [now destruct (N v0)|].
              rewrite R. simpl. rewrite (sum_amounts_cons r []).
              unfold sum_amounts. simpl. ring.
        -- split; [intros _; now destruct (rows_with col k' df)|].
           intros _. destruct D as [(v0 & Hin)|R].
           ++ exists (v0 + Amount r). apply A. right.
              split; [reflexivity|]. left. now exists v0.
           ++ exists (Amount r). apply A. right. split; [reflexivity|].
              right. split; [|reflexivity].
              intros v0 Hin. apply (proj1 Ib). now exists v0. exact R.
      * rewrite app_nil_r. split.
        -- intros v Hin. apply A in Hin.
           destruct Hin as [[_ Hin]|[E _]]; [now apply Ia|congruence].
        -- rewrite <- Ib. split; intros (v & Hin); exists v.
           ++ apply A in Hin.
              destruct Hin as [[_ Hin]|[E _]]; [exact Hin|congruence].
           ++ apply A. left. now split.
    + rewrite app_nil_r. split; assumption.
Qed.




Lemma summary_labels (tot : Series) (sh : list (string * f64)) :
  map label (with_shares tot sh) = map fst tot.
Proof. unfold with_shares. rewrite map_map. reflexivity. Qed.

Lemma NoDup_firstn {A} (n : nat) (l : list A) :
  NoDup l -> NoDup (firstn n l).
Proof.
  intros H. rewrite <- (firstn_skipn n l) in H.
  now apply NoDup_app_remove_r in H.
Qed.

(** X13: no label occurs twice in a list of the summary. *)
Theorem X13_labels_unique (df : DataFrame) :
  NoDup (map label (by_type (summarize df)))
  /\ NoDup (map label (by_payment (summarize df)))
  /\ NoDup (map fst (top_merchants (summarize df)))
  /\ NoDup (map fst (top_areas (summarize df)))
  /\ NoDup (map fst (shell_by_station (summarize df)))
  /\ NoDup (map fst (monthly_totals (summarize df))).
Proof.
  cbn [summarize by_type by_payment top_merchants top_areas
                 shell_by_station monthly_totals].
  rewrite !summary_labels. unfold head. rewrite <- !firstn_map.
  repeat split; try apply NoDup_firstn; try apply grouped_desc_NoDup.
  apply keys_increasing_NoDup, monthly_increasing.
Qed.

(** *** The top ten *)

Lemma StronglySorted_app_between {A} (R : A -> A -> Prop) (l1 l2 : list A) :
  StronglySorted R (l1 ++ l2) ->
  forall x y : A, In x l1 -> In y l2 -> R x y.
Proof.
  induction l1 as [|a l1 IH]; simpl; intros H x y Hx Hy; [destruct Hx|].
  inversion H as [|? ? Hs F]; subst.
  destruct Hx as [<-|Hx]; [|now apply IH].
  rewrite Forall_forall in F. apply F, in_or_app. now right.
Qed.

Lemma head_top_n (n : nat) (col : Row -> option string) (df : DataFrame) :
  top_n_of n (sort_values_desc (groupby_sum col df))
    (head n (sort_values_desc (groupby_sum col df))).
Proof.
  unfold top_n_of, head.
  set (full := sort_values_desc (groupby_sum col df)).
  exists (skipn n full). split; [symmetry; apply firstn_skipn|].
  split; [apply length_firstn|].
  intros x y Hx Hy. apply desc_then_key_ge.
  apply (StronglySorted_app_between desc_then_key (firstn n full)
           (skipn n full)); try assumption.
  rewrite firstn_skipn. apply grouped_desc_sorted.
Qed.

(** X14: [top_merchants] and [top_areas] are the ten largest groups: the
    first ten entries of the descending aggregation (all of them when
    there are at most ten), and no group left out has a larger sum than a
    group listed. *)
Theorem X14_top_ten (df : DataFrame) :
  top_n_of 10 (merch_tot df) (top_merchants (summarize df))
  /\ top_n_of 10 (area_tot df) (top_areas (summarize df)).
Proof. split; apply head_top_n. Qed.

(** *** The Shell stations *)



(** *** The area table *)

Lemma sum_of_add_stat (k : string) (a : Q) (g : Stats) :
  map sum_of (add_stat k a g) = add_group k a (map sum_of g).
Proof.
  induction g as [|[k' [s c]] g IH]; simpl; [reflexivity|].
  destruct (String.compare k k'); simpl; [reflexivity|reflexivity|].
  now rewrite IH.
Qed.

Lemma sum_of_groupby_agg (col : Row -> option string) (df : DataFrame) :
  map sum_of (groupby_agg col df) = groupby_sum col df.
Proof.
  unfold groupby_agg, groupby_sum.
  change (@nil (string * Q)) with (map sum_of []).
  generalize (@nil (string * (Q * nat))).
  induction df as [|r df IH]; intros g; simpl; [reflexivity|].
  rewrite IH. destruct (col r); [|reflexivity].
  now rewrite sum_of_add_stat.
Qed.

Lemma sum_of_insert (x : string * (Q * nat)) (l : Stats) :
  map sum_of (insert_stat_desc x l) = insert_desc (sum_of x) (map sum_of l).
Proof.
  induction l as [|y l IH]; simpl; [reflexivity|].
  destruct (Qltb (fst (snd x)) (fst (snd y))); simpl; [|reflexivity].
  now rewrite IH.
Qed.

Lemma sum_of_sort (s : Stats) :
  map sum_of (sort_stats_desc s) = sort_values_desc (map sum_of s).
Proof.
  induction s as [|x s IH]; simpl; [reflexivity|].
  now rewrite sum_of_insert, IH.
Qed.

Lemma sum_of_area_stats (df : DataFrame) :
  map sum_of (area_stats df) = head 8 (area_tot df).
Proof.
  unfold area_stats, head, area_tot.
  now rewrite <- firstn_map, sum_of_sort, sum_of_groupby_agg.
Qed.

Lemma groupby_agg_snoc (col : Row -> option string) (df : DataFrame)
      (r : Row) :
  groupby_agg col (df ++ [r])
  = match col r with
    | Some k => add_stat k (Amount r) (groupby_agg col df)
    | None => groupby_agg col df
    end.
Proof. unfold groupby_agg. now rewrite fold_left_app. Qed.

(** The count of an entry after one more row went to group [k']. *)
Lemma in_add_stat (k' : string) (a : Q) (g : Stats) (k : string)
      (s : Q) (c : nat) :
  keys_increasing (map sum_of g) ->
  In (k, (s, c)) (add_stat k' a g) ->
  (k <> k' /\ In (k, (s, c)) g)
  \/ (k = k' /\ ((exists s0 c0, In (k, (s0, c0)) g /\ c = S c0)
                 \/ ((forall s0 c0, ~ In (k, (s0, c0)) g) /\ c = 1%nat))).
Proof.
  unfold keys_increasing.
  induction g as [|[k0 [s0 c0]] g IH]; simpl; intros Hg.
  - intros [E|[]]. injection E as <- <- <-. right. split; [reflexivity|].
    right. split; [intros ? ? []|reflexivity].
  - inversion Hg as [|? ? Hg' F]; subst.
    assert (Fk : forall x w n, In (x, (w, n)) g -> slt k0 x).
    { intros x w n Hin. rewrite Forall_forall in F.
      apply (F (sum_of (x, (w, n)))). now apply in_map. }
    destruct (String.compare k' k0) eqn:C.
    + apply String.compare_eq_iff in C. subst k0. simpl.
      intros [E|Hin].
      * injection E as <- <- <-. right. split; [reflexivity|].
        left. exists s0, c0. split; [now left|reflexivity].
      * left. split; [|now right].
        intros ->. apply (slt_irrefl k'). eapply Fk; eassumption.
    + simpl. intros [E|Hin].
      * injection E as <- <- <-. right. split; [reflexivity|].
        right. split; [|reflexivity].
        intros w n [E|Hin].
        -- injection E as -> _ _. now apply (slt_irrefl k').
        -- apply (slt_irrefl k'). eapply slt_trans; [exact C|].
           eapply Fk; eassumption.
      * left. split; [|exact Hin].
        intros ->. destruct Hin as [E|Hin].
        -- injection E as -> _ _. now apply (slt_irrefl k').
        -- apply (slt_irrefl k'). eapply slt_trans; [exact C|].
           eapply Fk; eassumption.
    + apply slt_gt in C. simpl. intros [E|Hin].
      * injection E as <- <- <-. left. split; [|now left].
        intros ->. now apply (slt_irrefl k').
      * destruct (IH Hg' Hin) as [[N H]|[-> [(w & n & H & ->)|[N ->]]]].
        -- left. split; [exact N|now right].
        -- right. split; [reflexivity|]. left. exists w, n.
           split; [now right|reflexivity].
        -- right. split; [reflexivity|]. right. split; [|reflexivity].
           intros w n [E|H]; [|now apply (N w n)].
           injection E as -> _ _. now apply (slt_irrefl k').
Qed.

Lemma groupby_agg_counts (col : Row -> option string) (df : DataFrame)
      (k : string) (s : Q) (c : nat) :
  In (k, (s, c)) (groupby_agg col df) ->
  c = List.length (rows_with col k df) /\ (1 <= c)%nat.
Proof.
  revert k s c. induction df as [|r df IH] using rev_ind; intros k s c.
  - intros [].
  - rewrite groupby_agg_snoc, rows_with_snoc, length_app.
    destruct (col r) as [k'|] eqn:Ck.
    + intros Hin. apply in_add_stat in Hin.
      2:{ rewrite sum_of_groupby_agg. apply groupby_sum_increasing. }
      destruct Hin as [[N Hin]|[-> [(w & n & Hin & ->)|[N ->]]]].
      * destruct (String.eqb_spec k k') as [E|_]; [congruence|].
        simpl. rewrite Nat.add_0_r. now apply (IH k s c).
      * rewrite String.eqb_refl. simpl.
        destruct (IH _ _ _ Hin) as [-> _]. lia.
      * rewrite String.eqb_refl. simpl.
        assert (R : rows_with col k' df = []).
        { destruct (rows_with col k' df) eqn:R; [reflexivity|].
          destruct (proj2 (proj2 (groupby_sum_groups col df k')))
            as (v & Hv); [rewrite R; discriminate|].
          rewrite <- sum_of_groupby_agg in Hv.
          apply in_map_iff in Hv. destruct Hv as ([x [w n]] & E & Hx).
          injection E as -> _. now destruct (N w n). }
        rewrite R. simpl. lia.
    + simpl. rewrite Nat.add_0_r. apply IH.
Qed.

Lemma count_total_add_stat (k : string) (a : Q) (g : Stats) :
  count_total (add_stat k a g) = S (count_total g).
Proof.
  induction g as [|[k' [s c]] g IH]; simpl; [reflexivity|].
  destruct (String.compare k k'); simpl; [reflexivity|reflexivity|].
  rewrite IH. lia.
Qed.

Lemma count_total_groupby_agg (df : DataFrame) :
  count_total (groupby_agg by_area df) = List.length df.
Proof.
  induction df as [|r df IH] using rev_ind; [reflexivity|].
  rewrite groupby_agg_snoc, length_app. simpl.
  rewrite count_total_add_stat, IH. lia.
Qed.

Lemma count_total_insert (x : string * (Q * nat)) (l : Stats) :
  count_total (insert_stat_desc x l) = (snd (snd x) + count_total l)%nat.
Proof.
  induction l as [|y l IH]; simpl; [reflexivity|].
  destruct (Qltb (fst (snd x)) (fst (snd y))); simpl; [|reflexivity].
  rewrite IH. lia.
Qed.

Lemma count_total_sort (s : Stats) :
  count_total (sort_stats_desc s) = count_total s.
Proof.
  induction s as [|x s IH]; simpl; [reflexivity|].
  now rewrite count_total_insert, IH.
Qed.

Lemma count_total_firstn (n : nat) (s : Stats) :
  (count_total (firstn n s) <= count_total s)%nat.
Proof.
  revert n. induction s as [|x s IH]; intros [|n]; simpl; try lia.
  specialize (IH n). lia.
Qed.

Lemma insert_stat_perm (x : string * (Q * nat)) (l : Stats) :
  Permutation (x :: l) (insert_stat_desc x l).
Proof.
  induction l as [|y l IH]; simpl; [reflexivity|].
  destruct (Qltb (fst (snd x)) (fst (snd y))); [|reflexivity].
  rewrite perm_swap. now constructor.
Qed.

Lemma sort_stats_perm (s : Stats) : Permutation s (sort_stats_desc s).
Proof.
  induction s as [|x s IH]; simpl; [constructor|].
  rewrite <- insert_stat_perm. now constructor.
Qed.

(** X7: the area table of line 310 shows the first eight areas of the
    descending area totals with the same sums, which are also the areas of
    the heatmap of line 216; the count of a line is the number of rows of
    its area and is at least 1; the counts never add up to more than the
    number of rows, and add up to it when there are at most eight
    areas. *)
Theorem X7_area_table (df : DataFrame) :
  map sum_of (area_stats df) = head 8 (area_tot df)
  /\ map fst (area_stats df) = top_areas_list df
  /\ (forall (k : string) (s : Q) (c : nat),
        In (k, (s, c)) (area_stats df) ->
        c = List.length (rows_with by_area k df) /\ (1 <= c)%nat)
  /\ (count_total (area_stats df) <= List.length df)%nat
  /\ ((List.length (area_tot df) <= 8)%nat ->
      count_total (area_stats df) = List.length df).
Proof.
  split; [apply sum_of_area_stats|].
  split.
  { unfold top_areas_list. rewrite <- sum_of_area_stats, map_map.
    reflexivity. }
  split.
  { intros k s c Hin. apply (groupby_agg_counts by_area df k s c).
    eapply Permutation_in; [apply Permutation_sym, sort_stats_perm|].
    unfold area_stats in Hin.
    rewrite <- (firstn_skipn 8 (sort_stats_desc _)).
    apply in_or_app. left. exact Hin. }
  split.
  { unfold area_stats. etransitivity; [apply count_total_firstn|].
    now rewrite count_total_sort, count_total_groupby_agg. }
  intros L. unfold area_stats.
  rewrite firstn_all2.
  - now rewrite count_total_sort, count_total_groupby_agg.
  - rewrite <- (length_map sum_of), sum_of_sort, sum_of_groupby_agg.
    exact L.
Qed.

Lemma X7_witness :
  count_total (area_stats ledger_two_months) = 2%nat.
Proof.
  apply (X7_area_table ledger_two_months). vm_compute. lia.
Defined.

Example area_table_two_months :
  area_stats ledger_two_months
  = [("Dagoretti", (100, 1%nat)); ("Kikuyu Road", (100, 1%nat))].
Proof. vm_compute. reflexivity. Qed.

End LedgerExtras.

(** * Properties of the number formatting *)

Module FormatFacts.
Import Num Format.
Local Open Scope list_scope.

(** Induction on a list in steps of three elements. *)
Lemma threes_ind (P : list ascii -> Prop) :
  P [] -> (forall a, P [a]) -> (forall a b, P [a; b]) ->
  (forall a b c, P [a; b; c]) ->
  (forall a b c d rest, P (d :: rest) -> P (a :: b :: c :: d :: rest)) ->
  forall l, P l.
Proof.
  intros H0 H1 H2 H3 Hs.
  assert (G : forall n l, (List.length l <= n)%nat -> P l).
  { induction n as [|n IH]; intros l Hl.
    - destruct l; [exact H0|simpl in Hl; lia].
    - destruct l as [|a [|b [|c [|d rest]]]]; auto.
      apply Hs, IH. simpl in *. lia. }
  intros l. apply (G (List.length l)). lia.
Qed.

Lemma group_rev_filter (l : list ascii) :
  Forall (fun c => not_comma c = true) l ->
  filter not_comma (group_rev l) = l.
Proof.
  induction l as [|a|a b|a b c|a b c d rest IH] using threes_ind;
    intros F.
  - reflexivity.
  - inversion F; subst. simpl. now rewrite H1.
  - inversion F as [|? ? Ha F1]; subst. inversion F1 as [|? ? Hb _]; subst.
    simpl. now rewrite Ha, Hb.
  - inversion F as [|? ? Ha F1]; subst. inversion F1 as [|? ? Hb F2]; subst.
    inversion F2 as [|? ? Hc _]; subst. simpl. now rewrite Ha, Hb, Hc.
  - inversion F as [|? ? Ha F1]; subst. inversion F1 as [|? ? Hb F2]; subst.
    inversion F2 as [|? ? Hc F3]; subst.
    change (group_rev (a :: b :: c :: d :: rest))
      with (a :: b :: c :: ","%char :: group_rev (d :: rest)).
    cbn [filter]. rewrite Ha, Hb, Hc.
    change (not_comma ",") with false. cbv iota. now rewrite (IH F3).
Qed.

Lemma group_rev_length (l : list ascii) :
  List.length (group_rev l)
  = (List.length l + (List.length l - 1) / 3)%nat.
Proof.
  induction l as [|a|a b|a b c|a b c d rest IH] using threes_ind;
    try reflexivity.
  change (group_rev (a :: b :: c :: d :: rest))
    with (a :: b :: c :: ","%char :: group_rev (d :: rest)).
  cbn [List.length] in *. rewrite IH.
  replace (S (S (S (S (List.length rest)))) - 1)%nat
    with (S (List.length rest) - 1 + 1 * 3)%nat by lia.
  rewrite Nat.div_add by lia. lia.
Qed.

(** Counting from 0, the commas stand at the positions 3, 7, 11, ... *)
Lemma group_rev_commas (l : list ascii) :
  Forall (fun c => not_comma c = true) l ->
  forall i : nat,
    (i < List.length (group_rev l))%nat ->
    (nth i (group_rev l) " "%char = ","%char <-> (i mod 4 = 3)%nat).
Proof.
  assert (NC : forall c, not_comma c = true -> c <> ","%char).
  { intros c H ->. discriminate H. }
  induction l as [|a|a b|a b c|a b c d rest IH] using threes_ind;
    intros F i Hi.
  - simpl in Hi. lia.
  - inversion F; subst. simpl in Hi.
    destruct i as [|i]; [|lia]. simpl. split; [intros E|discriminate].
    now destruct (NC a).
  - inversion F as [|? ? Ha F1]; subst. inversion F1 as [|? ? Hb _]; subst.
    simpl in Hi. destruct i as [|[|i]]; [| |lia]; simpl;
      (split; [intros E|discriminate]);
      [now destruct (NC a)|now destruct (NC b)].
  - inversion F as [|? ? Ha F1]; subst. inversion F1 as [|? ? Hb F2]; subst.
    inversion F2 as [|? ? Hc _]; subst.
    simpl in Hi. destruct i as [|[|[|i]]]; [| | |lia]; simpl;
      (split; [intros E|discriminate]);
      [now destruct (NC a)|now destruct (NC b)|now destruct (NC c)].
  - inversion F as [|? ? Ha F1]; subst. inversion F1 as [|? ? Hb F2]; subst.
    inversion F2 as [|? ? Hc F3]; subst.
    change (group_rev (a :: b :: c :: d :: rest))
      with (a :: b :: c :: ","%char :: group_rev (d :: rest)) in *.
    cbn [List.length] in Hi.
    destruct i as [|[|[|[|i]]]].
    + simpl. split; [intros E; now destruct (NC a)|discriminate].
    + simpl. split; [intros E; now destruct (NC b)|discriminate].
    + simpl. split; [intros E; now destruct (NC c)|discriminate].
    + simpl. split; reflexivity.
    + cbn [nth]. rewrite (IH F3 i) by lia.
      replace (S (S (S (S i)))) with (i + 1 * 4)%nat by lia.
      now rewrite Nat.Div0.mod_add.
Qed.

Lemma is_digit_chars (c : ascii) :
  is_digit c = true -> not_comma c = true /\ c <> "-"%char.
Proof.
  destruct c as [[] [] [] [] [] [] [] []]; vm_compute;
    intros H; try discriminate H; split; try reflexivity; discriminate.
Qed.

Lemma digits_of_uint (d : uint) :
  Forall (fun c => is_digit c = true)
    (list_ascii_of_string (NilEmpty.string_of_uint d)).
Proof.
  induction d; simpl; constructor; try assumption; reflexivity.
Qed.

Lemma digits_are_digits (n : N) :
  Forall (fun c => is_digit c = true) (list_ascii_of_string (digits n)).
Proof.
  unfold digits, NilZero.string_of_uint.
  destruct (N.to_uint n) eqn:E;
    try (rewrite <- E; apply digits_of_uint).
  repeat constructor.
Qed.

Lemma digits_no_comma (n : N) :
  Forall (fun c => not_comma c = true) (list_ascii_of_string (digits n)).
Proof.
  eapply Forall_impl; [|apply digits_are_digits].
  intros c H. now apply is_digit_chars.
Qed.

(** X22: the thousands separators stand where they should.  Counting the
    characters of a formatted count from the right, starting at 0, the
    character at position [i] is a comma exactly when [i] leaves the
    remainder 3 on division by 4; so the leftmost group has one to three
    digits and every other group exactly three, and a number of [d]
    digits takes [d + (d - 1) / 3] characters. *)
Theorem X22_comma_positions (n : N) :
  let text := group3 (digits n) in
  let d := String.length (digits n) in
  List.length (from_the_right text) = (d + (d - 1) / 3)%nat
  /\ forall i : nat,
       (i < List.length (from_the_right text))%nat ->
       (nth i (from_the_right text) " "%char = ","%char
        <-> (i mod 4 = 3)%nat).
Proof.
  intros text d. unfold text, from_the_right, group3.
  rewrite list_ascii_of_string_of_list_ascii, rev_involutive.
  split.
  - rewrite group_rev_length, length_rev.
    assert (E : List.length (list_ascii_of_string (digits n)) = d).
    { unfold d. generalize (digits n). intros s.
      induction s; simpl; congruence. }
    now rewrite E.
  - apply group_rev_commas, Forall_rev, digits_no_comma.
Qed.

Lemma X22_witness :
  nth 3 (from_the_right (group3 (digits 1234567))) " "%char = ","%char.
Proof.
  apply (proj2 (X22_comma_positions 1234567) 3%nat);
    [vm_compute; lia|reflexivity].
Defined.

End FormatFacts.
